(** * Chance Encounter: the simulation core of [chance_encounter.py]

    A shallow embedding of the grid helpers, the two turn functions of the
    [ChanceEncounter] class and its Monte Carlo estimator, followed by the
    properties proved about them.

    Modelling conventions.
    - Python integers are [Z]; a cell ([Vec], a tuple of two ints) is [Z * Z].
    - A set of cells ([Set[Vec]]) is a [gset (Z * Z)].
    - The module [random] is a state threaded through every draw: a
      [RandomSource] gives the generator state and [randbelow], the primitive
      [random.choice] is written with.
    - The instance attributes of [ChanceEncounter] that the simulation reads or
      writes form the record [Game]; a method is a function from the record
      (and the generator) to the updated record (and generator).
    - A float is the exact rational it is the rounding of, or [PosInf]; a true
      division is fallible ([ZeroDivisionError]).
    - [random.random()] is a [UnitSource] on the same generator state.
    - The main loop is run on a list of frames, each the pending events and
      the clock value of one pass; the drawing is left out. *)

From Stdlib Require Import ZArith QArith Qreduction List Bool Lia.
From stdpp Require Import base decidable list gmap.
Import ListNotations.

Local Open Scope Z_scope.

(* ------------------------------------------------------------------ *)
(** ** Config *)

Definition GRID_W : Z := 12.
Definition GRID_H : Z := 12.
Definition MC_TRIALS : Z := 1000.
Definition MC_MAX_STEPS : Z := 2000.

Definition BLUE : Z * Z * Z := (76, 161, 255).
Definition RED : Z * Z * Z := (255, 92, 92).

(* ------------------------------------------------------------------ *)
(** ** Data structures *)

Definition Vec : Type := (Z * Z)%type.

Record Agent : Type := mkAgent {
  pos : Vec;
  prev : Vec;
  color : Z * Z * Z
}.

(** [Agent.move]. *)
Definition move (self : Agent) (d : Vec) : Agent :=
  {| pos := (fst (pos self) + fst d, snd (pos self) + snd d);
     prev := pos self;
     color := color self |}.

(** Floats as they appear in the estimator's result. *)
Inductive pyfloat : Type :=
| Fin (q : Q)
| PosInf.

Inductive pyerror : Type :=
| ZeroDivisionError.

(** A small error monad for the code that may raise. *)
Definition result (A : Type) : Type := (pyerror + A)%type.
Definition ret {A} (x : A) : result A := inr x.
Definition raise {A} (e : pyerror) : result A := inl e.
Definition bind {A B} (m : result A) (k : A -> result B) : result B :=
  match m with
  | inl e => inl e
  | inr x => k x
  end.

Notation "'try!' x ':=' m 'in' k" := (bind m (fun x => k))
  (at level 10, x name, m at level 100, k at level 200).

(** [n / d] on two ints. *)
Definition true_div (n d : Z) : result pyfloat :=
  if d =? 0 then raise ZeroDivisionError
  else ret (Fin (Qred (inject_Z n / inject_Z d))).

(* ------------------------------------------------------------------ *)
(** ** The random source *)

(** [randbelow g n] is [random._randbelow(n)]: an index below [n] and the
    next generator state. *)
Class RandomSource : Type := {
  rng : Type;
  randbelow : rng -> nat -> nat * rng;
  randbelow_lt : forall g n, (0 < n)%nat -> (fst (randbelow g n) < n)%nat
}.

(** [random.choice(seq)] on a non-empty sequence: [seq[_randbelow(len(seq))]].
    The default [d] is never returned, the index being below the length. *)
Definition choice `{RandomSource} {A} (d : A) (seq : list A) (g : rng) : A * rng :=
  let '(i, g') := randbelow g (length seq) in (nth i seq d, g').

(* ------------------------------------------------------------------ *)
(** ** Helper functions, on a grid of [W] by [H] cells *)

Section Grid.

Variables W H : Z.

Definition in_bounds (p : Vec) : bool :=
  (0 <=? fst p) && (fst p <? W) && ((0 <=? snd p) && (snd p <? H)).

Definition neighbors (p : Vec) : list Vec :=
  [(fst p + 1, snd p); (fst p - 1, snd p); (fst p, snd p + 1); (fst p, snd p - 1)].

Definition encounter (a b : Agent) : bool :=
  bool_decide (pos a = pos b)
  || (bool_decide (pos a = prev b) && bool_decide (pos b = prev a)).

Definition valid_moves (p : Vec) (walls : gset Vec) : list Vec :=
  let opts := List.filter (fun d => in_bounds d && bool_decide (d ∉ walls)) (neighbors p) in
  match opts with
  | [] => [p]
  | _ => opts
  end.

Definition random_step `{RandomSource} (p : Vec) (walls : gset Vec) (g : rng) : Vec * rng :=
  choice p (valid_moves p walls) g.

(* ------------------------------------------------------------------ *)
(** ** Game: the attributes of [ChanceEncounter] the simulation uses *)

Inductive Mode : Type :=
| PLAYER_VS_RANDOM
| RANDOM_VS_RANDOM.

Record Game : Type := mkGame {
  mode : Mode;
  auto_run : bool;
  turns : Z;
  met : bool;
  show_mc : option (pyfloat * pyfloat);
  obstacles_on : bool;
  walls : gset Vec;
  blue : Agent;
  red : Agent
}.

Definition set_prev (a : Agent) (p : Vec) : Agent :=
  {| pos := pos a; prev := p; color := color a |}.

Definition set_pos (a : Agent) (p : Vec) : Agent :=
  {| pos := p; prev := prev a; color := color a |}.

Definition set_round (self : Game) (b r : Agent) (t : Z) (m : bool) : Game :=
  {| mode := mode self; auto_run := auto_run self; turns := t; met := m;
     show_mc := show_mc self; obstacles_on := obstacles_on self;
     walls := walls self; blue := b; red := r |}.

(** *** Simulation logic *)

Definition step_random_vs_random `{RandomSource} (self : Game) (g : rng) : Game * rng :=
  if met self then (self, g)
  else
    (* self.blue.prev, self.red.prev = self.blue.pos, self.red.pos *)
    let blue1 := set_prev (blue self) (pos (blue self)) in
    let red1 := set_prev (red self) (pos (red self)) in
    let '(pb, g1) := random_step (pos blue1) (walls self) g in
    let blue2 := set_pos blue1 pb in
    let '(pr, g2) := random_step (pos red1) (walls self) g1 in
    let red2 := set_pos red1 pr in
    (set_round self blue2 red2 (turns self + 1) (encounter blue2 red2), g2).

Definition step_player_vs_random `{RandomSource} (self : Game) (player_dir : Vec) (g : rng)
  : Game * rng :=
  if met self then (self, g)
  else
    let target := (fst (pos (blue self)) + fst player_dir,
                   snd (pos (blue self)) + snd player_dir) in
    let blue1 :=
      if in_bounds target && bool_decide (target ∉ walls self)
      then set_pos (set_prev (blue self) (pos (blue self))) target
      else set_prev (blue self) (pos (blue self)) in
    let red1 := set_prev (red self) (pos (red self)) in
    let '(pr, g1) := random_step (pos red1) (walls self) g in
    let red2 := set_pos red1 pr in
    (set_round self blue1 red2 (turns self + 1) (encounter blue1 red2), g1).

(** *** Monte Carlo *)

(** The inner loop [for _ in range(max_steps)], with [n] iterations left and
    the locals [a], [b], [a_prev], [b_prev], [steps]. [Some k] is the [break]
    with [steps = k]; [None] is the loop running out. *)
Fixpoint mc_steps `{RandomSource} (n : nat) (a b a_prev b_prev : Vec) (steps : Z) (g : rng)
  : option Z * rng :=
  match n with
  | O => (None, g)
  | S n' =>
    let '(a_next, g1) := random_step a ∅ g in
    let '(b_next, g2) := random_step b ∅ g1 in
    let steps := steps + 1 in
    if bool_decide (a_next = b_next)
       || (bool_decide (a_next = b_prev) && bool_decide (b_next = a_prev))
    then (Some steps, g2)
    else mc_steps n' a_next b_next a b steps g2
  end.

(** One iteration of the outer loop up to the end of the inner one. *)
Definition mc_trial `{RandomSource} (max_steps : Z) (g : rng) : option Z * rng :=
  let a := (0, 0) in
  let b := (W - 1, H - 1) in
  mc_steps (Z.to_nat max_steps) a b a b 0 g.

(** The outer loop [for _ in range(trials)], with [n] iterations left and the
    locals [meets], [total_steps]. *)
Fixpoint mc_trials `{RandomSource} (n : nat) (max_steps : Z) (meets total_steps : Z) (g : rng)
  : Z * Z * rng :=
  match n with
  | O => (meets, total_steps, g)
  | S n' =>
    match mc_trial max_steps g with
    | (Some steps, g') => mc_trials n' max_steps (meets + 1) (total_steps + steps) g'
    | (None, g') => mc_trials n' max_steps meets total_steps g'
    end
  end.

(** The two last assignments of [monte_carlo]. *)
Definition mc_aggregate (trials meets total_steps : Z) : result (pyfloat * pyfloat) :=
  try! meet_rate := (if trials =? 0 then ret (Fin 0) else true_div meets trials) in
  try! avg_steps := (if meets =? 0 then ret PosInf else true_div total_steps meets) in
  ret (avg_steps, meet_rate).

Definition monte_carlo `{RandomSource} (self : Game) (trials max_steps : Z) (g : rng)
  : result (pyfloat * pyfloat) * Game * rng :=
  let '(meets, total_steps, g') := mc_trials (Z.to_nat trials) max_steps 0 0 g in
  (mc_aggregate trials meets total_steps, self, g').

(** *** Views of the loops used to state the properties *)

(** The pairs [(a_next, b_next)] drawn by the inner loop, one per iteration it
    runs, in order. *)
Fixpoint mc_path `{RandomSource} (n : nat) (a b a_prev b_prev : Vec) (g : rng)
  : list (Vec * Vec) :=
  match n with
  | O => []
  | S n' =>
    let '(a_next, g1) := random_step a ∅ g in
    let '(b_next, g2) := random_step b ∅ g1 in
    (a_next, b_next) ::
      (if bool_decide (a_next = b_next)
          || (bool_decide (a_next = b_prev) && bool_decide (b_next = a_prev))
       then []
       else mc_path n' a_next b_next a b g2)
  end.

(** The outcomes of the [n] trials of the outer loop, in order. *)
Fixpoint mc_outcomes `{RandomSource} (n : nat) (max_steps : Z) (g : rng) : list (option Z) :=
  match n with
  | O => []
  | S n' =>
    let '(r, g') := mc_trial max_steps g in
    r :: mc_outcomes n' max_steps g'
  end.

(** The spec's [advanceTurn]: both next steps are computed from the pre-turn
    snapshot of the positions, then both agents are updated at once. *)
Definition advance_turn_snapshot `{RandomSource} (self : Game) (g : rng) : Game * rng :=
  let a0 := pos (blue self) in
  let b0 := pos (red self) in
  let '(a1, g1) := random_step a0 (walls self) g in
  let '(b1, g2) := random_step b0 (walls self) g1 in
  let blue' := {| pos := a1; prev := a0; color := color (blue self) |} in
  let red' := {| pos := b1; prev := b0; color := color (red self) |} in
  (set_round self blue' red' (turns self + 1) (encounter blue' red'), g2).

(** A list of pairs of cells is a walk of two agents from [a] and [b] when
    each pair is made of a move out of the cell before it, under [ws]. *)
Fixpoint is_walk (ws : gset Vec) (a b : Vec) (path : list (Vec * Vec)) : Prop :=
  match path with
  | [] => True
  | (a', b') :: rest =>
    In a' (valid_moves a ws) /\ In b' (valid_moves b ws) /\ is_walk ws a' b' rest
  end.

End Grid.

(** The number of trials that met and the sum of their step counts. *)
Definition meeting_trials (outcomes : list (option Z)) : Z :=
  Z.of_nat (length (omap id outcomes)).

Definition step_sum (outcomes : list (option Z)) : Z :=
  fold_right Z.add 0 (omap id outcomes).

(* ------------------------------------------------------------------ *)
(** ** Walls, rounds and keys *)

(** [random.random()]: a float in the half-open interval from 0 to 1, and
    the next generator state. *)
Class UnitSource `{RandomSource} : Type := {
  random_unit : rng -> Q * rng;
  random_unit_range :
    forall g, (0 <= fst (random_unit g))%Q /\ (fst (random_unit g) < 1)%Q
}.

(** The float [0.12], the default of [gen_walls]. *)
Definition DEFAULT_DENSITY : Q := 1080863910568919 # 9007199254740992.

(** The keys the main loop tests for; [K_other] is any other key. *)
Inductive Key : Type :=
| K_ESCAPE | K_q | K_m | K_r | K_o | K_p | K_SPACE | K_RETURN
| K_UP | K_w | K_DOWN | K_s | K_LEFT | K_a | K_RIGHT | K_d
| K_other.

(** The events of [pygame.event.get()] by their type. *)
Inductive Event : Type :=
| QUIT
| KEYDOWN (key : Key)
| OTHER_EVENT.

(** [dir_map], with [None] for a key that is not in it. *)
Definition dir_map (key : Key) : option Vec :=
  match key with
  | K_UP | K_w => Some (0, -1)
  | K_DOWN | K_s => Some (0, 1)
  | K_LEFT | K_a => Some (-1, 0)
  | K_RIGHT | K_d => Some (1, 0)
  | _ => None
  end.

(** What one pass of [random_free_cell] or one key press comes to. *)
Inductive free_cell_outcome `{RandomSource} : Type :=
| FreeCell (p : Vec) (g : rng)
| ValueError
| StillSearching (g : rng).

Inductive key_outcome `{RandomSource} : Type :=
| Exit
| Raised (e : pyerror)
| Continue (self : Game) (g : rng).

Definition set_mode (self : Game) (m : Mode) : Game :=
  {| mode := m; auto_run := auto_run self; turns := turns self; met := met self;
     show_mc := show_mc self; obstacles_on := obstacles_on self;
     walls := walls self; blue := blue self; red := red self |}.

Definition set_obstacles_on (self : Game) (o : bool) : Game :=
  {| mode := mode self; auto_run := auto_run self; turns := turns self; met := met self;
     show_mc := show_mc self; obstacles_on := o;
     walls := walls self; blue := blue self; red := red self |}.

Definition set_auto_run (self : Game) (r : bool) : Game :=
  {| mode := mode self; auto_run := r; turns := turns self; met := met self;
     show_mc := show_mc self; obstacles_on := obstacles_on self;
     walls := walls self; blue := blue self; red := red self |}.

Definition set_show_mc (self : Game) (s : option (pyfloat * pyfloat)) : Game :=
  {| mode := mode self; auto_run := auto_run self; turns := turns self; met := met self;
     show_mc := s; obstacles_on := obstacles_on self;
     walls := walls self; blue := blue self; red := red self |}.

(** [ensure_reachable]: every start is discarded from the set. *)
Definition ensure_reachable (walls : gset Vec) (starts : list Vec) : gset Vec :=
  fold_left (fun ws s => ws ∖ {[ s ]}) starts walls.

Section Round.

Variables W H : Z.
Context `{RS : RandomSource} {US : @UnitSource RS}.

(** [random.randrange(stop)]: [None] is the [ValueError] of an empty range. *)
Definition randrange (stop : Z) (g : rng) : option (Z * rng) :=
  if 0 <? stop
  then let '(i, g') := randbelow g (Z.to_nat stop) in Some (Z.of_nat i, g')
  else None.

(** [random_free_cell], its [while True] run for at most [fuel] iterations. *)
Fixpoint random_free_cell (fuel : nat) (walls exclude : gset Vec) (g : rng)
  : free_cell_outcome :=
  match fuel with
  | O => StillSearching g
  | S fuel' =>
    match randrange W g with
    | None => ValueError
    | Some (x, g1) =>
      match randrange H g1 with
      | None => ValueError
      | Some (y, g2) =>
        if bool_decide ((x, y) ∉ walls) && bool_decide ((x, y) ∉ exclude)
        then FreeCell (x, y) g2
        else random_free_cell fuel' walls exclude g2
      end
    end
  end.

(** The inner loop of [gen_walls] over the columns [xs] of row [y]. *)
Fixpoint gen_walls_row (density : Q) (y : Z) (xs : list Z) (walls : gset Vec) (g : rng)
  : gset Vec * rng :=
  match xs with
  | [] => (walls, g)
  | x :: xs' =>
    let '(u, g1) := random_unit g in
    let walls1 := if negb (Qle_bool density u) then {[ (x, y) ]} ∪ walls else walls in
    gen_walls_row density y xs' walls1 g1
  end.

(** The outer loop of [gen_walls] over the rows [ys]. *)
Fixpoint gen_walls_rows (density : Q) (ys : list Z) (walls : gset Vec) (g : rng)
  : gset Vec * rng :=
  match ys with
  | [] => (walls, g)
  | y :: ys' =>
    let '(walls1, g1) := gen_walls_row density y (seqZ 0 W) walls g in
    gen_walls_rows density ys' walls1 g1
  end.

Definition gen_walls (density : Q) (g : rng) : gset Vec * rng :=
  gen_walls_rows density (seqZ 0 H) ∅ g.

Definition reset_round (self : Game) (g : rng) : Game * rng :=
  let '(walls1, g1) :=
    if obstacles_on self then gen_walls DEFAULT_DENSITY g else (∅, g) in
  let a_start := (0, 0) in
  let b_start := (W - 1, H - 1) in
  let walls2 := ensure_reachable walls1 [a_start; b_start] in
  ({| mode := mode self; auto_run := false; turns := 0; met := false;
      show_mc := None; obstacles_on := obstacles_on self; walls := walls2;
      blue := mkAgent a_start a_start BLUE;
      red := mkAgent b_start b_start RED |}, g1).

(** The body of the [KEYDOWN] branch of the main loop, for the key [key]. *)
Definition on_keydown (self : Game) (key : Key) (g : rng) : key_outcome :=
  match key with
  | K_ESCAPE | K_q => Exit
  | _ =>
    let '(s1, g1) :=
      match key with
      | K_m =>
        reset_round
          (set_mode self match mode self with
                         | PLAYER_VS_RANDOM => RANDOM_VS_RANDOM
                         | RANDOM_VS_RANDOM => PLAYER_VS_RANDOM
                         end) g
      | _ => (self, g)
      end in
    let '(s2, g2) :=
      match key with
      | K_r => reset_round s1 g1
      | _ => (s1, g1)
      end in
    let '(s3, g3) :=
      match key with
      | K_o => reset_round (set_obstacles_on s2 (negb (obstacles_on s2))) g2
      | _ => (s2, g2)
      end in
    let r4 :=
      match key with
      | K_p =>
        let '(r, s, g') := monte_carlo W H s3 MC_TRIALS MC_MAX_STEPS g3 in
        try! stats := r in ret (set_show_mc s (Some stats), g')
      | _ => ret (s3, g3)
      end in
    match r4 with
    | inl e => Raised e
    | inr (s4, g4) =>
      match mode s4 with
      | RANDOM_VS_RANDOM =>
        let '(s5, g5) :=
          match key with
          | K_SPACE => step_random_vs_random W H s4 g4
          | _ => (s4, g4)
          end in
        let s6 :=
          match key with
          | K_RETURN => set_auto_run s5 (negb (auto_run s5))
          | _ => s5
          end in
        Continue s6 g5
      | PLAYER_VS_RANDOM =>
        match dir_map key with
        | Some d =>
          let '(s5, g5) := step_player_vs_random W H s4 d g4 in Continue s5 g5
        | None => Continue s4 g4
        end
      end
    end
  end.

(** The auto-run step of the main loop, [ticks] being [pygame.time.get_ticks()]. *)
Definition auto_run_tick (self : Game) (ticks : Z) (g : rng) : Game * rng :=
  match mode self with
  | RANDOM_VS_RANDOM =>
    if auto_run self && negb (met self)
    then if ticks mod 3 =? 0 then step_random_vs_random W H self g else (self, g)
    else (self, g)
  | PLAYER_VS_RANDOM => (self, g)
  end.

(** One pass of the main loop without the drawing: the pending events are
    handled in order, then the auto-run step is taken. [Exit] is [sys.exit()]. *)
Definition on_event (self : Game) (e : Event) (g : rng) : key_outcome :=
  match e with
  | QUIT => Exit
  | KEYDOWN key => on_keydown self key g
  | OTHER_EVENT => Continue self g
  end.

Fixpoint handle_events (self : Game) (events : list Event) (g : rng) : key_outcome :=
  match events with
  | [] => Continue self g
  | e :: events' =>
    match on_event self e g with
    | Continue self' g' => handle_events self' events' g'
    | stop => stop
    end
  end.

Definition run_frame (self : Game) (events : list Event) (ticks : Z) (g : rng)
  : key_outcome :=
  match handle_events self events g with
  | Continue self' g' =>
    let '(self'', g'') := auto_run_tick self' ticks g' in Continue self'' g''
  | stop => stop
  end.

(** The main loop run on the successive frames [frames], each the events
    found by [pygame.event.get()] and the value of [get_ticks()]. *)
Fixpoint run (self : Game) (frames : list (list Event * Z)) (g : rng)
  : key_outcome :=
  match frames with
  | [] => Continue self g
  | (events, ticks) :: frames' =>
    match run_frame self events ticks g with
    | Continue self' g' => run self' frames' g'
    | stop => stop
    end
  end.

End Round.

(** A cell an agent may stand on, and what holds of a round at all times. *)
Definition safe_cell (W H : Z) (ws : gset Vec) (p : Vec) : Prop :=
  in_bounds W H p = true /\ p ∉ ws.

Definition round_inv (W H : Z) (self : Game) : Prop :=
  safe_cell W H (walls self) (pos (blue self))
  /\ safe_cell W H (walls self) (prev (blue self))
  /\ safe_cell W H (walls self) (pos (red self))
  /\ safe_cell W H (walls self) (prev (red self))
  /\ 0 <= turns self
  /\ (met self = true -> encounter (blue self) (red self) = true /\ 1 <= turns self).

(** In the walk [path] of two agents from [a] and [b], no agent ever steps
    onto the cell the other one is leaving. *)
Fixpoint never_crosses (a b : Vec) (path : list (Vec * Vec)) : Prop :=
  match path with
  | [] => True
  | (a', b') :: rest => a' <> b /\ b' <> a /\ never_crosses a' b' rest
  end.

(** Distance in moves between two cells. *)
Definition manhattan (p q : Vec) : Z :=
  Z.abs (fst p - fst q) + Z.abs (snd p - snd q).

(* ------------------------------------------------------------------ *)
(** ** Two random sources to run the model with *)

(** A scripted source: the draws are read off a tape, reduced below the
    bound; an exhausted tape answers 0. *)
Definition tape_randbelow (g : list nat) (n : nat) : nat * list nat :=
  match g with
  | [] => (0%nat, [])
  | x :: g' => ((x mod n)%nat, g')
  end.

(** [random.random()] on the scripted source: the tape entry as hundredths. *)
Definition tape_unit (g : list nat) : Q * list nat :=
  match g with
  | [] => (0%Q, [])
  | x :: g' => (Z.of_nat (x mod 100) # 100, g')
  end.

(** A linear congruential generator on [Z]. *)
Definition lcg_randbelow (g : Z) (n : nat) : nat * Z :=
  (Z.to_nat (g mod Z.of_nat n), (1103515245 * g + 12345) mod 2147483648).

(** A round as [reset_round] leaves it with the obstacles off. *)
Definition fresh_game : Game :=
  {| mode := PLAYER_VS_RANDOM; auto_run := false; turns := 0; met := false;
     show_mc := None; obstacles_on := false; walls := ∅;
     blue := mkAgent (0, 0) (0, 0) BLUE;
     red := mkAgent (GRID_W - 1, GRID_H - 1) (GRID_W - 1, GRID_H - 1) RED |}.

(** The tape on which blue walks along the top row and red up the last
    column: they meet in the corner (11, 0) at turn 11. *)
Definition corner_tape : list nat :=
  ([0; 1] ++ concat (repeat [0; 2] 10%nat))%nat.

(** The tape on which blue walks to (5, 5) and red to (6, 6) in ten turns,
    then blue goes by (6, 5) to (6, 6) while red goes by (5, 6) to (5, 5). *)
Definition diagonal_tape : list nat :=
  ([0; 0] ++ concat (repeat [0; 1] 4%nat) ++ [2; 2] ++ concat (repeat [2; 3] 4%nat)
   ++ [0; 1] ++ [2; 3])%nat.

(** What the claims call a legal move out of [p]: an axis-aligned neighbour
    (at distance one along exactly one axis), in bounds and not a wall. *)
Definition legal_neighbor (W H : Z) (walls : gset Vec) (p q : Vec) : Prop :=
  Z.abs (fst q - fst p) + Z.abs (snd q - snd p) = 1
  /\ (0 <= fst q < W /\ 0 <= snd q < H)
  /\ q ∉ walls.

(** The two sources satisfy the law of [randbelow]. *)

Lemma tape_randbelow_lt (g : list nat) (n : nat) :
  (0 < n)%nat -> (fst (tape_randbelow g n) < n)%nat.
Proof.
  intros Hn. destruct g as [|x g']; simpl; [exact Hn|].
  apply Nat.mod_upper_bound. lia.
Qed.

Lemma lcg_randbelow_lt (g : Z) (n : nat) :
  (0 < n)%nat -> (fst (lcg_randbelow g n) < n)%nat.
Proof.
  intros Hn. unfold lcg_randbelow; simpl.
  pose proof (Z.mod_pos_bound g (Z.of_nat n)). lia.
Qed.

Definition tape_source : RandomSource :=
  {| rng := list nat; randbelow := tape_randbelow; randbelow_lt := tape_randbelow_lt |}.

Definition lcg_source : RandomSource :=
  {| rng := Z; randbelow := lcg_randbelow; randbelow_lt := lcg_randbelow_lt |}.

Lemma tape_unit_range (g : list nat) :
  (0 <= fst (tape_unit g))%Q /\ (fst (tape_unit g) < 1)%Q.
Proof.
  destruct g as [|x g']; simpl; [unfold Qle, Qlt; simpl; lia|].
  pose proof (Nat.mod_upper_bound x 100%nat).
  unfold Qle, Qlt; simpl. lia.
Qed.

Definition tape_unit_source : @UnitSource tape_source :=
  {| random_unit := tape_unit : @rng tape_source -> Q * @rng tape_source;
     random_unit_range := tape_unit_range |}.

(* ------------------------------------------------------------------ *)
(** ** Properties of the helper functions *)

Section GridFacts.

Variables W H : Z.

Lemma in_bounds_spec (p : Vec) :
  in_bounds W H p = true <-> 0 <= fst p < W /\ 0 <= snd p < H.
Proof. unfold in_bounds. rewrite !andb_true_iff. lia. Qed.

Lemma neighbors_spec (p q : Vec) :
  In q (neighbors p) <-> Z.abs (fst q - fst p) + Z.abs (snd q - snd p) = 1.
Proof.
  destruct p as [x y], q as [u v]; unfold neighbors; simpl. split.
  - intros [E|[E|[E|[E|[]]]]]; inversion E; subst; lia.
  - intros Hd.
    assert (Hc : (u = x + 1 /\ v = y) \/ (u = x - 1 /\ v = y)
                 \/ (u = x /\ v = y + 1) \/ (u = x /\ v = y - 1)) by lia.
    destruct Hc as [[-> ->]|[[-> ->]|[[-> ->]|[-> ->]]]]; auto.
Qed.

Lemma legal_filter_spec (walls : gset Vec) (p q : Vec) :
  In q (List.filter (fun d => in_bounds W H d && bool_decide (d ∉ walls)) (neighbors p))
  <-> legal_neighbor W H walls p q.
Proof.
  rewrite filter_In, andb_true_iff, in_bounds_spec, bool_decide_eq_true, neighbors_spec.
  unfold legal_neighbor. tauto.
Qed.

Lemma valid_moves_nonempty (p : Vec) (walls : gset Vec) :
  valid_moves W H p walls <> [].
Proof. unfold valid_moves. destruct (List.filter _ _); discriminate. Qed.

Lemma valid_moves_some (walls : gset Vec) (p : Vec) :
  (exists q, legal_neighbor W H walls p q) ->
  forall q, In q (valid_moves W H p walls) <-> legal_neighbor W H walls p q.
Proof.
  intros [q0 Hq0] q. rewrite <- legal_filter_spec. unfold valid_moves.
  apply legal_filter_spec in Hq0.
  destruct (List.filter _ _) as [|d opts]; [destruct Hq0 | reflexivity].
Qed.

Lemma valid_moves_none (walls : gset Vec) (p : Vec) :
  ~ (exists q, legal_neighbor W H walls p q) ->
  valid_moves W H p walls = [p].
Proof.
  intros Hno. unfold valid_moves.
  destruct (List.filter _ _) as [|d opts] eqn:E; [reflexivity|].
  exfalso. apply Hno. exists d. apply legal_filter_spec. rewrite E. now left.
Qed.

(** A move is the cell itself or a legal neighbour. *)
Lemma valid_moves_In (walls : gset Vec) (p q : Vec) :
  In q (valid_moves W H p walls) -> q = p \/ legal_neighbor W H walls p q.
Proof.
  unfold valid_moves. intros Hq.
  destruct (List.filter _ _) as [|d opts] eqn:E.
  - destruct Hq as [->|[]]. now left.
  - right. apply legal_filter_spec. now rewrite E.
Qed.

Context `{RS : RandomSource}.

Lemma choice_In {A} (d : A) (seq : list A) (g : rng) :
  seq <> [] -> In (fst (choice d seq g)) seq.
Proof.
  intros Hne. unfold choice.
  pose proof (randbelow_lt g (length seq)) as Hlt.
  destruct (randbelow g (length seq)) as [i g']; simpl in *.
  apply nth_In, Hlt. destruct seq; [congruence | simpl; lia].
Qed.

Lemma random_step_In (p : Vec) (walls : gset Vec) (g : rng) :
  In (fst (random_step W H p walls g)) (valid_moves W H p walls).
Proof. apply choice_In, valid_moves_nonempty. Qed.

End GridFacts.

(* ------------------------------------------------------------------ *)
(** ** Encounters and legal moves *)

(** C1. [encounter a b] is true exactly when the current positions are equal,
    or [a]'s current position is [b]'s previous one and [b]'s current position
    is [a]'s previous one; for [a] at (3,3) coming from (2,3) and [b] at (2,3)
    coming from (3,3) it is true although the current positions differ. *)
Theorem encounter_meeting_or_crossing :
  (forall a b : Agent,
     encounter a b = true <->
     pos a = pos b \/ (pos a = prev b /\ pos b = prev a))
  /\ (forall ca cb : Z * Z * Z,
        let a := mkAgent (3, 3) (2, 3) ca in
        let b := mkAgent (2, 3) (3, 3) cb in
        encounter a b = true /\ pos a <> pos b).
Proof.
  split.
  - intros a b. unfold encounter.
    rewrite orb_true_iff, andb_true_iff, !bool_decide_eq_true. reflexivity.
  - intros ca cb. simpl. split; [reflexivity | discriminate].
Qed.

(** C2. On every grid of width and height at least 1, for every set of walls
    and every cell [p], [valid_moves] is non-empty; when [p] has a neighbour
    that is in bounds and not a wall, the moves are exactly those neighbours;
    when it has none, the result is the singleton [[p]]. *)
Theorem valid_moves_legal (W H : Z) (walls : gset Vec) (p : Vec) :
  1 <= W -> 1 <= H ->
  valid_moves W H p walls <> []
  /\ ((exists q, legal_neighbor W H walls p q) ->
      forall q, In q (valid_moves W H p walls) -> legal_neighbor W H walls p q)
  /\ (~ (exists q, legal_neighbor W H walls p q) ->
      valid_moves W H p walls = [p]).
Proof.
  intros _ _. split; [apply valid_moves_nonempty|]. split.
  - intros Hex q Hq. now apply (valid_moves_some W H walls p Hex).
  - apply valid_moves_none.
Qed.

(** On the 12 by 12 grid, from the corner (0, 0): one wall leaves one move,
    two walls leave the cell itself. *)
Lemma valid_moves_legal_witness :
  valid_moves GRID_W GRID_H (0, 0) {[ (1, 0) ]} = [(0, 1)]
  /\ valid_moves GRID_W GRID_H (0, 0) {[ (1, 0); (0, 1) ]} = [(0, 0)]
  /\ (forall q, In q (valid_moves GRID_W GRID_H (0, 0) {[ (1, 0) ]}) ->
        legal_neighbor GRID_W GRID_H {[ (1, 0) ]} (0, 0) q).
Proof.
  split; [vm_compute; reflexivity|]. split; [vm_compute; reflexivity|].
  refine (proj1 (proj2 (valid_moves_legal GRID_W GRID_H {[ (1, 0) ]} (0, 0) _ _)) _).
  - unfold GRID_W; lia.
  - unfold GRID_H; lia.
  - exists (0, 1). unfold legal_neighbor, GRID_W, GRID_H; simpl.
    split; [lia|]. split; [lia|]. set_solver.
Defined.

(* ------------------------------------------------------------------ *)
(** ** Properties of the Monte Carlo loops *)

Lemma true_div_nonzero (n d : Z) :
  d <> 0 -> true_div n d = ret (Fin (Qred (inject_Z n / inject_Z d))).
Proof. intros Hd. unfold true_div. now destruct (Z.eqb_spec d 0). Qed.

Lemma Qred_zero_div (d : Z) : Qred (inject_Z 0 / inject_Z d) = 0%Q.
Proof. destruct d; reflexivity. Qed.

Lemma Qred_div_eq (n d : Z) :
  (Qred (inject_Z n / inject_Z d) == inject_Z n / inject_Z d)%Q.
Proof. apply Qred_correct. Qed.

Lemma Qred_div_bounds (n d lo hi : Z) :
  0 < d -> lo * d <= n <= hi * d ->
  (inject_Z lo <= Qred (inject_Z n / inject_Z d) <= inject_Z hi)%Q.
Proof.
  intros Hd [Hlo Hhi]. rewrite Qred_div_eq.
  assert (Hd' : (inject_Z 0 < inject_Z d)%Q) by (rewrite <- Zlt_Qlt; exact Hd).
  split.
  - apply Qle_shift_div_l; [exact Hd'|].
    rewrite <- inject_Z_mult, <- Zle_Qle. exact Hlo.
  - apply Qle_shift_div_r; [exact Hd'|].
    rewrite <- inject_Z_mult, <- Zle_Qle. exact Hhi.
Qed.

Lemma meeting_trials_Some (k : Z) (l : list (option Z)) :
  meeting_trials (Some k :: l) = meeting_trials l + 1.
Proof.
  unfold meeting_trials. change (omap id (Some k :: l)) with (k :: omap id l).
  cbn [length]. lia.
Qed.

Lemma meeting_trials_None (l : list (option Z)) :
  meeting_trials (None :: l) = meeting_trials l.
Proof. reflexivity. Qed.

Lemma step_sum_Some (k : Z) (l : list (option Z)) :
  step_sum (Some k :: l) = step_sum l + k.
Proof.
  unfold step_sum. change (omap id (Some k :: l)) with (k :: omap id l).
  cbn [fold_right]. lia.
Qed.

Lemma step_sum_None (l : list (option Z)) :
  step_sum (None :: l) = step_sum l.
Proof. reflexivity. Qed.

Lemma outcomes_counts (max_steps : Z) (l : list (option Z)) :
  (forall k, In (Some k) l -> 1 <= k <= max_steps) ->
  0 <= meeting_trials l <= Z.of_nat (length l)
  /\ meeting_trials l * 1 <= step_sum l <= max_steps * meeting_trials l.
Proof.
  induction l as [|[k|] l IH]; intros Hl.
  - unfold meeting_trials, step_sum. simpl. lia.
  - destruct IH as [IH1 IH2]; [intros; apply Hl; now right|].
    specialize (Hl k (or_introl eq_refl)).
    rewrite meeting_trials_Some, step_sum_Some.
    cbn [length]. rewrite Nat2Z.inj_succ.
    assert (max_steps * (meeting_trials l + 1)
            = max_steps * meeting_trials l + max_steps) by ring.
    lia.
  - destruct IH as [IH1 IH2]; [intros; apply Hl; now right|].
    rewrite meeting_trials_None, step_sum_None.
    cbn [length]. rewrite Nat2Z.inj_succ. lia.
Qed.

Section MonteCarloFacts.

Variables W H : Z.
Context `{RS : RandomSource}.

Lemma mc_steps_bounds (n : nat) :
  forall a b a_prev b_prev steps g k g',
    mc_steps W H n a b a_prev b_prev steps g = (Some k, g') ->
    steps + 1 <= k <= steps + Z.of_nat n.
Proof.
  induction n as [|n IH]; intros a b a_prev b_prev steps g k g' E; simpl in E.
  - discriminate.
  - destruct (random_step W H a ∅ g) as [a_next g1].
    destruct (random_step W H b ∅ g1) as [b_next g2].
    destruct (_ || _).
    + inversion E; subst. lia.
    + apply IH in E. lia.
Qed.

Lemma mc_trial_bounds (max_steps : Z) (g : rng) (k : Z) (g' : rng) :
  mc_trial W H max_steps g = (Some k, g') -> 1 <= k <= max_steps.
Proof. unfold mc_trial. intros E. apply mc_steps_bounds in E. lia. Qed.

(** Without a positive cap the trial draws nothing and does not meet. *)
Lemma mc_trial_no_steps (max_steps : Z) (g : rng) :
  max_steps <= 0 -> mc_trial W H max_steps g = (None, g).
Proof.
  intros Hm. unfold mc_trial.
  replace (Z.to_nat max_steps) with O by lia. reflexivity.
Qed.

Lemma mc_outcomes_length (n : nat) (max_steps : Z) :
  forall g, length (mc_outcomes W H n max_steps g) = n.
Proof.
  induction n as [|n IH]; intros g; simpl; [reflexivity|].
  destruct (mc_trial W H max_steps g) as [r g1]. simpl. now rewrite IH.
Qed.

Lemma mc_outcomes_bounds (n : nat) (max_steps : Z) :
  forall g k, In (Some k) (mc_outcomes W H n max_steps g) -> 1 <= k <= max_steps.
Proof.
  induction n as [|n IH]; intros g k Hin; simpl in Hin; [destruct Hin|].
  destruct (mc_trial W H max_steps g) as [r g1] eqn:E.
  destruct Hin as [->|Hin].
  - eapply mc_trial_bounds; eauto.
  - eapply IH; eauto.
Qed.

(** The two counters of the outer loop are the number of meeting trials and
    the sum of their step counts. *)
Lemma mc_trials_counts (n : nat) (max_steps : Z) :
  forall meets total_steps g,
    mc_trials W H n max_steps meets total_steps g =
    (meets + meeting_trials (mc_outcomes W H n max_steps g),
     total_steps + step_sum (mc_outcomes W H n max_steps g),
     snd (mc_trials W H n max_steps 0 0 g)).
Proof.
  induction n as [|n IH]; intros meets total_steps g; cbn [mc_trials mc_outcomes].
  - change (meeting_trials []) with 0. change (step_sum []) with 0.
    cbn [snd]. f_equal. f_equal; lia.
  - destruct (mc_trial W H max_steps g) as [[k|] g1]; cbn [snd].
    + rewrite (IH (meets + 1) (total_steps + k) g1), (IH (0 + 1) (0 + k) g1).
      rewrite meeting_trials_Some, step_sum_Some. cbn [snd].
      f_equal. f_equal; lia.
    + rewrite (IH meets total_steps g1).
      rewrite meeting_trials_None, step_sum_None. reflexivity.
Qed.

Lemma mc_trials_no_steps (n : nat) (max_steps : Z) :
  max_steps <= 0 ->
  forall meets total_steps g,
    mc_trials W H n max_steps meets total_steps g = (meets, total_steps, g).
Proof.
  intros Hm. induction n as [|n IH]; intros meets total_steps g; simpl; [reflexivity|].
  rewrite mc_trial_no_steps by exact Hm. apply IH.
Qed.

Lemma monte_carlo_unfold (self : Game) (trials max_steps : Z) (g : rng) :
  monte_carlo W H self trials max_steps g =
  (mc_aggregate trials
     (meeting_trials (mc_outcomes W H (Z.to_nat trials) max_steps g))
     (step_sum (mc_outcomes W H (Z.to_nat trials) max_steps g)),
   self,
   snd (mc_trials W H (Z.to_nat trials) max_steps 0 0 g)).
Proof.
  unfold monte_carlo. rewrite mc_trials_counts. reflexivity.
Qed.

End MonteCarloFacts.

(* ------------------------------------------------------------------ *)
(** ** The Monte Carlo aggregate *)

(** C3. [monte_carlo] never raises: with [meets] the number of trials that met
    and [total] the sum of their step counts, the meet rate is [meets / trials]
    (0.0 under the guard when [trials] is 0), the average is [total / meets]
    when [meets > 0] and the infinity sentinel when [meets = 0]; no division
    has a zero divisor. *)
Theorem monte_carlo_aggregate (W H : Z) `{RS : RandomSource}
    (self : Game) (trials max_steps : Z) (g : rng) :
  let outcomes := mc_outcomes W H (Z.to_nat trials) max_steps g in
  let meets := meeting_trials outcomes in
  let total := step_sum outcomes in
  exists avg_steps meet_rate g',
    monte_carlo W H self trials max_steps g = (inr (avg_steps, meet_rate), self, g')
    /\ 0 <= meets
    /\ (trials <> 0 ->
        exists q, meet_rate = Fin q /\ (q == inject_Z meets / inject_Z trials)%Q)
    /\ (trials = 0 -> meet_rate = Fin 0%Q)
    /\ (0 < meets ->
        exists q, avg_steps = Fin q /\ (q == inject_Z total / inject_Z meets)%Q)
    /\ (meets = 0 -> avg_steps = PosInf).
Proof.
  intros outcomes meets total.
  rewrite monte_carlo_unfold. fold outcomes. fold meets. fold total.
  assert (Hm : 0 <= meets) by (unfold meets, meeting_trials; lia).
  unfold mc_aggregate.
  destruct (Z.eqb_spec trials 0) as [Ht|Ht];
    destruct (Z.eqb_spec meets 0) as [Hz|Hz];
    rewrite ?true_div_nonzero by assumption; cbn [bind ret];
    do 3 eexists; (split; [reflexivity|]); (split; [exact Hm|]);
    repeat split; intros; try lia; try reflexivity;
    eexists; (split; [reflexivity | apply Qred_div_eq]).
Qed.

(** C4, the claim as stated does not hold: called with zero trials the
    estimator returns a pair of stats and raises nothing. *)
Lemma monte_carlo_zero_trials_returns :
  @monte_carlo GRID_W GRID_H lcg_source fresh_game 0 MC_MAX_STEPS 42
    = (inr (PosInf, Fin 0%Q), fresh_game, 42)
  /\ ~ (exists e,
          fst (fst (@monte_carlo GRID_W GRID_H lcg_source fresh_game 0 MC_MAX_STEPS 42))
          = inl e).
Proof.
  split; [reflexivity|]. intros [e He]. discriminate He.
Qed.

(** C4, as the code has it: with a zero or negative trial count or step cap
    [monte_carlo] raises nothing, draws nothing from the random source and
    returns the infinity sentinel for the average and a meet rate of 0. *)
Theorem monte_carlo_degenerate_config (W H : Z) `{RS : RandomSource}
    (self : Game) (trials max_steps : Z) (g : rng) :
  trials <= 0 \/ max_steps <= 0 ->
  monte_carlo W H self trials max_steps g = (inr (PosInf, Fin 0%Q), self, g).
Proof.
  intros Hc. unfold monte_carlo.
  assert (E : mc_trials W H (Z.to_nat trials) max_steps 0 0 g = (0, 0, g)).
  { destruct Hc as [Ht|Hm].
    - replace (Z.to_nat trials) with O by lia. reflexivity.
    - now apply mc_trials_no_steps. }
  rewrite E. unfold mc_aggregate.
  destruct (Z.eqb_spec trials 0) as [Ht|Ht]; [reflexivity|].
  rewrite true_div_nonzero by exact Ht. now rewrite Qred_zero_div.
Qed.

(** A negative trial count, and a step cap of 0 with the default trial count,
    on the scripted source. *)
Lemma monte_carlo_degenerate_config_witness :
  @monte_carlo GRID_W GRID_H tape_source fresh_game (-3) MC_MAX_STEPS corner_tape
    = (inr (PosInf, Fin 0%Q), fresh_game, corner_tape)
  /\ @monte_carlo GRID_W GRID_H tape_source fresh_game MC_TRIALS 0 corner_tape
    = (inr (PosInf, Fin 0%Q), fresh_game, corner_tape).
Proof.
  split.
  - apply (@monte_carlo_degenerate_config GRID_W GRID_H tape_source). left. lia.
  - apply (@monte_carlo_degenerate_config GRID_W GRID_H tape_source). right. lia.
Defined.

(** C5. With at least one trial and a step cap of at least 1, the meet rate
    lies in [0, 1]; the average is defined exactly when some trial met, and is
    then between 1 and the step cap, every meeting trial having recorded a
    step count between 1 and the cap. *)
Theorem monte_carlo_bounds (W H : Z) `{RS : RandomSource}
    (self : Game) (trials max_steps : Z) (g : rng) :
  1 <= trials -> 1 <= max_steps ->
  let outcomes := mc_outcomes W H (Z.to_nat trials) max_steps g in
  exists avg_steps r g',
    monte_carlo W H self trials max_steps g = (inr (avg_steps, Fin r), self, g')
    /\ (0 <= r <= 1)%Q
    /\ (forall q, avg_steps = Fin q -> (1 <= q <= inject_Z max_steps)%Q)
    /\ (0 < meeting_trials outcomes -> exists q, avg_steps = Fin q)
    /\ (forall k, In (Some k) outcomes -> 1 <= k <= max_steps).
Proof.
  intros Ht Hs outcomes.
  rewrite monte_carlo_unfold. fold outcomes.
  pose proof (mc_outcomes_bounds W H (Z.to_nat trials) max_steps g) as Hk.
  fold outcomes in Hk.
  destruct (outcomes_counts max_steps outcomes Hk) as [Hm Hsum].
  unfold outcomes in Hm at 3. rewrite mc_outcomes_length, Z2Nat.id in Hm by lia.
  unfold mc_aggregate.
  destruct (Z.eqb_spec trials 0) as [Ht0|_]; [lia|].
  rewrite true_div_nonzero by lia. cbn [bind ret].
  assert (Hr : (0 <= Qred (inject_Z (meeting_trials outcomes) / inject_Z trials) <= 1)%Q).
  { apply (Qred_div_bounds _ _ 0 1); lia. }
  destruct (Z.eqb_spec (meeting_trials outcomes) 0) as [Hz|Hz]; cbn [bind ret].
  - do 3 eexists. split; [reflexivity|]. split; [exact Hr|].
    split; [discriminate|]. split; [lia | exact Hk].
  - rewrite true_div_nonzero by exact Hz. cbn [bind ret].
    do 3 eexists. split; [reflexivity|]. split; [exact Hr|].
    split; [|split; [eauto | exact Hk]].
    intros q [= <-]. apply (Qred_div_bounds _ _ 1 max_steps); lia.
Qed.

(** Two trials capped at 11 steps on the scripted source: the first meets at
    step 11, the second does not meet. *)
Lemma monte_carlo_bounds_witness :
  @monte_carlo GRID_W GRID_H tape_source fresh_game 2 11 corner_tape
    = (inr (Fin 11%Q, Fin (1 # 2)%Q), fresh_game, [])
  /\ exists avg_steps r g',
       @monte_carlo GRID_W GRID_H tape_source fresh_game 2 11 corner_tape
         = (inr (avg_steps, Fin r), fresh_game, g')
       /\ (0 <= r <= 1)%Q
       /\ (forall q, avg_steps = Fin q -> (1 <= q <= inject_Z 11)%Q)
       /\ (0 < meeting_trials (@mc_outcomes GRID_W GRID_H tape_source (Z.to_nat 2) 11 corner_tape)
           -> exists q, avg_steps = Fin q)
       /\ (forall k,
             In (Some k) (@mc_outcomes GRID_W GRID_H tape_source (Z.to_nat 2) 11 corner_tape)
             -> 1 <= k <= 11).
Proof.
  split; [vm_compute; reflexivity|].
  apply (@monte_carlo_bounds GRID_W GRID_H tape_source fresh_game 2 11 corner_tape); lia.
Defined.

(* ------------------------------------------------------------------ *)
(** ** Turns *)

Section TurnFacts.

Variables W H : Z.
Context `{RS : RandomSource}.

Lemma step_random_vs_random_not_met (self : Game) (g : rng) :
  met self = false ->
  step_random_vs_random W H self g = advance_turn_snapshot W H self g.
Proof.
  intros Hm. unfold step_random_vs_random, advance_turn_snapshot. rewrite Hm.
  cbn [pos set_prev set_pos prev color].
  destruct (random_step W H (pos (blue self)) (walls self) g) as [a1 g1].
  destruct (random_step W H (pos (red self)) (walls self) g1) as [b1 g2].
  reflexivity.
Qed.

Lemma mc_steps_succ (n : nat) (a b a_prev b_prev : Vec) (steps : Z) (g : rng) :
  let a1 := random_step W H a ∅ g in
  let b1 := random_step W H b ∅ (snd a1) in
  mc_steps W H (S n) a b a_prev b_prev steps g =
  if bool_decide (fst a1 = fst b1)
     || (bool_decide (fst a1 = b_prev) && bool_decide (fst b1 = a_prev))
  then (Some (steps + 1), snd b1)
  else mc_steps W H n (fst a1) (fst b1) a b (steps + 1) (snd b1).
Proof.
  cbn [mc_steps].
  destruct (random_step W H a ∅ g) as [a_next g1]; cbn [fst snd].
  destruct (random_step W H b ∅ g1) as [b_next g2]; reflexivity.
Qed.

Lemma mc_path_succ (n : nat) (a b a_prev b_prev : Vec) (g : rng) :
  let a1 := random_step W H a ∅ g in
  let b1 := random_step W H b ∅ (snd a1) in
  mc_path W H (S n) a b a_prev b_prev g =
  (fst a1, fst b1) ::
    (if bool_decide (fst a1 = fst b1)
        || (bool_decide (fst a1 = b_prev) && bool_decide (fst b1 = a_prev))
     then []
     else mc_path W H n (fst a1) (fst b1) a b (snd b1)).
Proof.
  cbn [mc_path].
  destruct (random_step W H a ∅ g) as [a_next g1]; cbn [fst snd].
  destruct (random_step W H b ∅ g1) as [b_next g2]; reflexivity.
Qed.

(** The pairs drawn in a trial form a walk on the grid without walls. *)
Lemma mc_path_walk (n : nat) :
  forall a b a_prev b_prev g,
    is_walk W H ∅ a b (mc_path W H n a b a_prev b_prev g).
Proof.
  induction n as [|n IH]; intros a b a_prev b_prev g; [exact I|].
  rewrite mc_path_succ. cbn zeta. cbn [is_walk].
  split; [apply random_step_In|]. split; [apply random_step_In|].
  destruct (_ || _); [exact I | apply IH].
Qed.

(** A trial that meets at step [k] has run [k - steps] iterations, and runs
    the same with any larger number of iterations allowed. *)
Lemma mc_steps_stops (n : nat) :
  forall a b a_prev b_prev steps g k g',
    mc_steps W H n a b a_prev b_prev steps g = (Some k, g') ->
    Z.of_nat (length (mc_path W H n a b a_prev b_prev g)) = k - steps
    /\ forall m, k - steps <= Z.of_nat m ->
         mc_steps W H m a b a_prev b_prev steps g = (Some k, g')
         /\ mc_path W H m a b a_prev b_prev g = mc_path W H n a b a_prev b_prev g.
Proof.
  induction n as [|n IH]; intros a b a_prev b_prev steps g k g' E;
    [discriminate|].
  pose proof (mc_steps_bounds W H _ _ _ _ _ _ _ _ _ E) as Hk.
  rewrite mc_steps_succ in E. rewrite mc_path_succ. cbn zeta in *.
  destruct (_ || _) eqn:Htest.
  - inversion E; subst. split; [cbn [length]; lia|].
    intros [|m] Hle; [lia|].
    rewrite mc_steps_succ, mc_path_succ. cbn zeta. now rewrite Htest.
  - destruct (IH _ _ _ _ _ _ _ _ E) as [Hlen Hcap]. split.
    + cbn [length]. rewrite Nat2Z.inj_succ. lia.
    + intros [|m] Hle; [lia|].
      rewrite mc_steps_succ, mc_path_succ. cbn zeta. rewrite Htest.
      destruct (Hcap m) as [E1 E2]; [lia|]. now rewrite E1, E2.
Qed.

End TurnFacts.

(** C6. In a turn of [step_random_vs_random] on a round that has not met, and
    in one iteration of a Monte Carlo trial, each agent's new position is
    drawn from the legal moves of its own position before the turn; the draw
    of the second agent is made on its pre-turn position, and the turn is the
    one computed from the pre-turn snapshot with both updates applied at once. *)
Theorem turn_draws_from_pre_turn_positions (W H : Z) `{RS : RandomSource} :
  (forall (self : Game) (g : rng),
     met self = false ->
     let a1 := random_step W H (pos (blue self)) (walls self) g in
     let b1 := random_step W H (pos (red self)) (walls self) (snd a1) in
     let self' := fst (step_random_vs_random W H self g) in
     step_random_vs_random W H self g = advance_turn_snapshot W H self g
     /\ pos (blue self') = fst a1
     /\ pos (red self') = fst b1
     /\ In (pos (blue self')) (valid_moves W H (pos (blue self)) (walls self))
     /\ In (pos (red self')) (valid_moves W H (pos (red self)) (walls self))
     /\ prev (blue self') = pos (blue self)
     /\ prev (red self') = pos (red self))
  /\ (forall (n : nat) (a b a_prev b_prev : Vec) (steps : Z) (g : rng),
        let a1 := random_step W H a ∅ g in
        let b1 := random_step W H b ∅ (snd a1) in
        mc_steps W H (S n) a b a_prev b_prev steps g =
          (if bool_decide (fst a1 = fst b1)
              || (bool_decide (fst a1 = b_prev) && bool_decide (fst b1 = a_prev))
           then (Some (steps + 1), snd b1)
           else mc_steps W H n (fst a1) (fst b1) a b (steps + 1) (snd b1))
        /\ In (fst a1) (valid_moves W H a ∅)
        /\ In (fst b1) (valid_moves W H b ∅)).
Proof.
  split.
  - intros self g Hm a1 b1 self'.
    pose proof (random_step_In W H (pos (blue self)) (walls self) g) as Ha.
    pose proof (random_step_In W H (pos (red self)) (walls self) (snd a1)) as Hb.
    fold a1 in Ha. fold b1 in Hb.
    split; [now apply step_random_vs_random_not_met|].
    unfold self'. rewrite step_random_vs_random_not_met by exact Hm.
    unfold advance_turn_snapshot. fold a1.
    destruct a1 as [pa g1] eqn:Ea. cbn [fst snd] in *. fold b1.
    destruct b1 as [pb g2] eqn:Eb. cbn [fst snd] in *.
    cbn. repeat split; assumption.
  - intros n a b a_prev b_prev steps g a1 b1.
    split; [apply mc_steps_succ|]. split; apply random_step_In.
Qed.

(** The first turn of a fresh round on the congruential source. *)
Lemma turn_draws_from_pre_turn_positions_witness :
  fst (@step_random_vs_random GRID_W GRID_H lcg_source fresh_game 42)
    = set_round fresh_game (mkAgent (1, 0) (0, 0) BLUE) (mkAgent (11, 10) (11, 11) RED) 1 false
  /\ @step_random_vs_random GRID_W GRID_H lcg_source fresh_game 42
     = @advance_turn_snapshot GRID_W GRID_H lcg_source fresh_game 42.
Proof.
  split; [vm_compute; reflexivity|].
  apply (proj1 (@turn_draws_from_pre_turn_positions GRID_W GRID_H lcg_source)
           fresh_game 42 eq_refl).
Defined.

(** C7. Once the round has met, [step_random_vs_random] changes nothing: the
    agents, their previous positions, the turn counter and the random source
    are as before. A Monte Carlo trial that meets at turn [k] has run exactly
    [k] iterations of its loop, and raising the cap changes neither its result
    nor the state of the random source after it. *)
Theorem no_step_after_encounter (W H : Z) `{RS : RandomSource} :
  (forall (self : Game) (g : rng),
     met self = true -> step_random_vs_random W H self g = (self, g))
  /\ (forall (max_steps : Z) (g : rng) (k : Z) (g' : rng),
        mc_trial W H max_steps g = (Some k, g') ->
        1 <= k <= max_steps
        /\ Z.of_nat (length (mc_path W H (Z.to_nat max_steps)
                               (0, 0) (W - 1, H - 1) (0, 0) (W - 1, H - 1) g)) = k
        /\ forall cap, k <= cap -> mc_trial W H cap g = (Some k, g')).
Proof.
  split.
  - intros self g Hm. unfold step_random_vs_random. now rewrite Hm.
  - intros max_steps g k g' E.
    split; [eapply mc_trial_bounds; eauto|].
    unfold mc_trial in *.
    destruct (mc_steps_stops W H _ _ _ _ _ _ _ _ _ E) as [Hlen Hcap].
    split; [lia|].
    intros cap Hle. apply (Hcap (Z.to_nat cap)).
    apply mc_steps_bounds in E. lia.
Qed.

(** A round that has met, and the scripted trial under two caps. *)
Lemma no_step_after_encounter_witness :
  (let met_game := set_round fresh_game (blue fresh_game) (blue fresh_game) 3 true in
   @step_random_vs_random GRID_W GRID_H lcg_source met_game 42 = (met_game, 42))
  /\ @mc_trial GRID_W GRID_H tape_source 11 corner_tape = (Some 11, [])
  /\ @mc_trial GRID_W GRID_H tape_source MC_MAX_STEPS corner_tape = (Some 11, []).
Proof.
  pose proof (@no_step_after_encounter GRID_W GRID_H lcg_source) as [Hstep _].
  pose proof (@no_step_after_encounter GRID_W GRID_H tape_source) as [_ Htrial].
  split; [apply Hstep; reflexivity|].
  assert (E : @mc_trial GRID_W GRID_H tape_source 11 corner_tape = (Some 11, []))
    by (vm_compute; reflexivity).
  split; [exact E|].
  apply (Htrial 11 corner_tape 11 [] E). unfold MC_MAX_STEPS. lia.
Defined.

(** C8. The stats returned by [monte_carlo] are a function of the trial
    count, the step cap and the state of the random source alone: two runs
    from the same state of the source give the same stats and leave the source
    in the same state, whatever the game object holds, and the call leaves the
    game object as it was, so that a repeated call is the same run. *)
Theorem monte_carlo_deterministic (W H : Z) `{RS : RandomSource}
    (self other : Game) (trials max_steps : Z) (g : rng) :
  let run1 := monte_carlo W H self trials max_steps g in
  let run2 := monte_carlo W H other trials max_steps g in
  fst (fst run1) = fst (fst run2)
  /\ snd run1 = snd run2
  /\ snd (fst run1) = self
  /\ monte_carlo W H (snd (fst run1)) trials max_steps g = run1.
Proof.
  cbn zeta. rewrite !monte_carlo_unfold. cbn [fst snd].
  rewrite ?monte_carlo_unfold. repeat split.
Qed.

(** C9. Every Monte Carlo trial starts from two fresh agents in the corners
    (0, 0) and (W - 1, H - 1) with previous equal to current and a step count
    of 0; the cells it draws form a walk from these corners on the grid with
    no wall; hence the stats do not depend on the obstacle toggle or on the
    walls of the round. *)
Theorem monte_carlo_ignores_obstacles (W H : Z) `{RS : RandomSource} :
  (forall (max_steps : Z) (g : rng),
     let a := mkAgent (0, 0) (0, 0) BLUE in
     let b := mkAgent (W - 1, H - 1) (W - 1, H - 1) RED in
     mc_trial W H max_steps g
       = mc_steps W H (Z.to_nat max_steps) (pos a) (pos b) (prev a) (prev b) 0 g
     /\ is_walk W H ∅ (pos a) (pos b)
          (mc_path W H (Z.to_nat max_steps) (pos a) (pos b) (prev a) (prev b) g))
  /\ (forall (self : Game) (toggle : bool) (ws : gset Vec) (trials max_steps : Z) (g : rng),
        let other :=
          {| mode := mode self; auto_run := auto_run self; turns := turns self;
             met := met self; show_mc := show_mc self;
             obstacles_on := toggle; walls := ws;
             blue := blue self; red := red self |} in
        fst (fst (monte_carlo W H other trials max_steps g))
          = fst (fst (monte_carlo W H self trials max_steps g))
        /\ snd (monte_carlo W H other trials max_steps g)
          = snd (monte_carlo W H self trials max_steps g)).
Proof.
  split.
  - intros max_steps g a b. split; [reflexivity | apply mc_path_walk].
  - intros self toggle ws trials max_steps g other.
    rewrite !monte_carlo_unfold. split; reflexivity.
Qed.

(** C10. In [step_player_vs_random] on a round that has not met, when the
    requested direction leads out of bounds or into a wall, the player stays
    where it is with its previous position set to its current one, and the
    turn is still played: the random agent takes one random step among its
    legal moves, the turn counter grows by exactly 1 and the met flag is the
    encounter check on the two agents after the turn. *)
Theorem player_illegal_move_consumes_turn (W H : Z) `{RS : RandomSource}
    (self : Game) (player_dir : Vec) (g : rng) :
  met self = false ->
  let target := (fst (pos (blue self)) + fst player_dir,
                 snd (pos (blue self)) + snd player_dir) in
  in_bounds W H target = false \/ target ∈ walls self ->
  let r1 := random_step W H (pos (red self)) (walls self) g in
  let self' := fst (step_player_vs_random W H self player_dir g) in
  pos (blue self') = pos (blue self)
  /\ prev (blue self') = pos (blue self)
  /\ pos (red self') = fst r1
  /\ In (pos (red self')) (valid_moves W H (pos (red self)) (walls self))
  /\ prev (red self') = pos (red self)
  /\ snd (step_player_vs_random W H self player_dir g) = snd r1
  /\ turns self' = turns self + 1
  /\ met self' = encounter (blue self') (red self')
  /\ walls self' = walls self.
Proof.
  intros Hm target Hill r1 self'.
  pose proof (random_step_In W H (pos (red self)) (walls self) g) as Hr.
  fold r1 in Hr.
  assert (Hc : in_bounds W H target && bool_decide (target ∉ walls self) = false).
  { apply andb_false_iff. destruct Hill as [Hb|Hw]; [now left | right].
    apply bool_decide_eq_false. tauto. }
  unfold self', step_player_vs_random. rewrite Hm. fold target. rewrite Hc.
  cbn [pos set_prev]. fold r1.
  destruct r1 as [pr g1]. cbn [fst snd] in *. cbn.
  repeat split. exact Hr.
Qed.

(** The player asks to leave the grid by the left of the corner (0, 0). *)
Lemma player_illegal_move_consumes_turn_witness :
  let self' := fst (@step_player_vs_random GRID_W GRID_H lcg_source fresh_game (-1, 0) 42) in
  pos (blue self') = (0, 0)
  /\ prev (blue self') = (0, 0)
  /\ pos (red self') = (10, 11)
  /\ prev (red self') = (11, 11)
  /\ turns self' = 1
  /\ met self' = false.
Proof.
  pose proof (@player_illegal_move_consumes_turn GRID_W GRID_H lcg_source
                fresh_game (-1, 0) 42 eq_refl (or_introl eq_refl)) as Hw.
  cbn zeta in *.
  destruct Hw as (Hb & Hbp & Hr & _ & Hrp & _ & Ht & Hmet & _).
  split; [exact Hb|]. split; [exact Hbp|].
  split; [rewrite Hr; vm_compute; reflexivity|].
  split; [exact Hrp|]. split; [exact Ht|].
  rewrite Hmet. vm_compute. reflexivity.
Defined.

(* ------------------------------------------------------------------ *)
(** ** A note on the crossing test of the trial loop *)

(** After the first turn the loop tests the new positions against [a_prev]
    and [b_prev], which then hold the positions of two turns before: on
    [diagonal_tape] the trial stops at turn 12, where the agents neither share
    a cell nor have swapped cells in that turn ([encounter] on the agents as a
    round would hold them is false). *)
Remark mc_crossing_test_uses_older_positions :
  @mc_trial GRID_W GRID_H tape_source MC_MAX_STEPS diagonal_tape = (Some 12, [])
  /\ skipn 10 (@mc_path GRID_W GRID_H tape_source 12 (0, 0) (11, 11) (0, 0) (11, 11)
                 diagonal_tape)
     = [((6, 5), (5, 6)); ((6, 6), (5, 5))]
  /\ encounter (mkAgent (6, 6) (6, 5) BLUE) (mkAgent (5, 5) (5, 6) RED) = false.
Proof. repeat split; vm_compute; reflexivity. Qed.

(* ------------------------------------------------------------------ *)
(** ** More on encounters and moves *)

(** X1. [encounter] does not depend on the order of its two agents. *)
Theorem encounter_symmetric (a b : Agent) : encounter a b = encounter b a.
Proof.
  apply eq_true_iff_eq. unfold encounter.
  rewrite !orb_true_iff, !andb_true_iff, !bool_decide_eq_true.
  intuition congruence.
Qed.

(** X2. Two agents on cells one move [d] apart that exchange their cells
    with [Agent.move] are an encounter; unless [d] is the null move they end
    the turn on different cells, so this is the crossing case. *)
Theorem swap_by_move_is_encounter (a b : Agent) (d : Vec) :
  pos b = (fst (pos a) + fst d, snd (pos a) + snd d) ->
  encounter (move a d) (move b (- fst d, - snd d)) = true
  /\ (d <> (0, 0) -> pos (move a d) <> pos (move b (- fst d, - snd d))).
Proof.
  intros Hb. destruct a as [[ax ay] pa ca], b as [[bx by_] pb cb], d as [dx dy].
  simpl in *. inversion Hb; subst. split.
  - unfold encounter, move; simpl.
    apply orb_true_iff. right. apply andb_true_iff.
    rewrite !bool_decide_eq_true. split; f_equal; lia.
  - intros Hd E. inversion E. apply Hd. f_equal; lia.
Qed.

(** Blue at (3, 3) and red at (4, 3) exchange their cells. *)
Lemma swap_by_move_is_encounter_witness :
  encounter (move (mkAgent (3, 3) (3, 3) BLUE) (1, 0))
            (move (mkAgent (4, 3) (4, 3) RED) (-1, 0)) = true.
Proof.
  apply (swap_by_move_is_encounter (mkAgent (3, 3) (3, 3) BLUE)
           (mkAgent (4, 3) (4, 3) RED) (1, 0) eq_refl).
Defined.

Lemma neighbors_NoDup (p : Vec) : List.NoDup (neighbors p).
Proof.
  destruct p as [x y]. unfold neighbors; simpl.
  repeat constructor; simpl; intros Hin;
    repeat (destruct Hin as [Hin|Hin]; [inversion Hin; lia|]); exact Hin.
Qed.

(** X3. The four neighbours of a cell are distinct, none is the cell itself,
    and being a neighbour is symmetric. *)
Theorem neighbors_distinct_symmetric (p : Vec) :
  List.NoDup (neighbors p)
  /\ ~ In p (neighbors p)
  /\ forall q, In q (neighbors p) <-> In p (neighbors q).
Proof.
  split; [apply neighbors_NoDup | split].
  - rewrite neighbors_spec. lia.
  - intros q. rewrite !neighbors_spec. lia.
Qed.

(** X4. [valid_moves] lists between one and four cells and no cell twice. *)
Theorem valid_moves_distinct (W H : Z) (p : Vec) (ws : gset Vec) :
  List.NoDup (valid_moves W H p ws)
  /\ (1 <= length (valid_moves W H p ws) <= 4)%nat.
Proof.
  unfold valid_moves.
  pose proof (neighbors_NoDup p) as Hnd.
  apply (List.NoDup_filter (fun d => in_bounds W H d && bool_decide (d ∉ ws))) in Hnd.
  pose proof (List.filter_length_le
                (fun d => in_bounds W H d && bool_decide (d ∉ ws)) (neighbors p)) as Hlen.
  change (length (neighbors p)) with 4%nat in Hlen.
  destruct (List.filter _ _) as [|d opts].
  - split; [repeat constructor; simpl; tauto | simpl; lia].
  - split; [exact Hnd | simpl in *; lia].
Qed.

Lemma legal_neighbor_safe (W H : Z) (ws : gset Vec) (p q : Vec) :
  legal_neighbor W H ws p q -> safe_cell W H ws q.
Proof.
  intros (_ & Hb & Hw). split; [now apply in_bounds_spec | exact Hw].
Qed.

Lemma legal_neighbor_ne (W H : Z) (ws : gset Vec) (p q : Vec) :
  legal_neighbor W H ws p q -> q <> p.
Proof. intros (Hd & _) ->. lia. Qed.

Lemma legal_neighbor_sym (W H : Z) (ws : gset Vec) (p q : Vec) :
  safe_cell W H ws p -> legal_neighbor W H ws p q -> legal_neighbor W H ws q p.
Proof.
  intros [Hb Hw] (Hd & _). split; [lia|].
  split; [now apply in_bounds_spec | exact Hw].
Qed.

Lemma valid_moves_safe (W H : Z) (ws : gset Vec) (p q : Vec) :
  safe_cell W H ws p -> In q (valid_moves W H p ws) -> safe_cell W H ws q.
Proof.
  intros Hp Hq. destruct (valid_moves_In W H ws p q Hq) as [->|Hl];
    [exact Hp | eapply legal_neighbor_safe; eauto].
Qed.

(** X5. A move can be undone: when [q] is a move out of a cell [p] that is in
    bounds and not a wall, [p] is a move out of [q]. *)
Theorem valid_moves_reversible (W H : Z) (ws : gset Vec) (p q : Vec) :
  safe_cell W H ws p ->
  In q (valid_moves W H p ws) ->
  In p (valid_moves W H q ws).
Proof.
  intros Hp Hq. destruct (valid_moves_In W H ws p q Hq) as [->|Hl]; [exact Hq|].
  pose proof (legal_neighbor_sym W H ws p q Hp Hl) as Hback.
  apply (valid_moves_some W H ws q); [now exists p | exact Hback].
Qed.

(** From the corner (0, 0) to (1, 0) and back on the grid without walls. *)
Lemma valid_moves_reversible_witness :
  In (0, 0) (valid_moves GRID_W GRID_H (1, 0) ∅).
Proof.
  apply (valid_moves_reversible GRID_W GRID_H ∅ (0, 0) (1, 0)).
  - split; [reflexivity | set_solver].
  - vm_compute. left. reflexivity.
Defined.

(** X6. An agent that has a neighbour in bounds and not a wall never waits:
    whatever the random source answers, [random_step] returns such a
    neighbour, a cell other than the one it started from. *)
Theorem random_step_moves (W H : Z) `{RS : RandomSource}
    (ws : gset Vec) (p : Vec) (g : rng) :
  (exists q, legal_neighbor W H ws p q) ->
  legal_neighbor W H ws p (fst (random_step W H p ws g))
  /\ fst (random_step W H p ws g) <> p.
Proof.
  intros Hex.
  assert (Hl : legal_neighbor W H ws p (fst (random_step W H p ws g))).
  { apply (valid_moves_some W H ws p Hex). apply random_step_In. }
  split; [exact Hl | eapply legal_neighbor_ne; eauto].
Qed.

(** The first step out of the corner (0, 0) on the congruential source. *)
Lemma random_step_moves_witness :
  fst (@random_step GRID_W GRID_H lcg_source (0, 0) ∅ 42) <> (0, 0).
Proof.
  apply (@random_step_moves GRID_W GRID_H lcg_source ∅ (0, 0) 42).
  exists (1, 0). split; [reflexivity|]. split; [vm_compute; intuition discriminate|].
  set_solver.
Defined.

(** X7. An agent whose four neighbours are all out of bounds or walls stays
    where it is, whatever the random source answers. *)
Theorem random_step_walled_in (W H : Z) `{RS : RandomSource}
    (ws : gset Vec) (p : Vec) (g : rng) :
  (forall q, In q (neighbors p) -> in_bounds W H q = false \/ q ∈ ws) ->
  fst (random_step W H p ws g) = p.
Proof.
  intros Hall.
  assert (Hno : ~ (exists q, legal_neighbor W H ws p q)).
  { intros [q (Hd & Hb & Hw)].
    destruct (Hall q) as [Hout|Hin]; [now apply neighbors_spec | | tauto].
    apply in_bounds_spec in Hb. congruence. }
  pose proof (random_step_In W H p ws g) as Hin.
  rewrite (valid_moves_none W H ws p Hno) in Hin.
  destruct Hin as [E|[]]. now symmetry.
Qed.

(** The corner (0, 0) with walls on (1, 0) and (0, 1). *)
Lemma random_step_walled_in_witness :
  fst (@random_step GRID_W GRID_H lcg_source (0, 0) {[ (1, 0); (0, 1) ]} 42) = (0, 0).
Proof.
  apply (@random_step_walled_in GRID_W GRID_H lcg_source).
  intros q [<-|[<-|[<-|[<-|[]]]]]; simpl.
  - right. set_solver.
  - left. reflexivity.
  - right. set_solver.
  - left. reflexivity.
Defined.

(* ------------------------------------------------------------------ *)
(** ** Walls *)

Section WallFacts.

Variables W H : Z.
Context `{RS : RandomSource} {US : @UnitSource RS}.

Lemma gen_walls_row_sound (density : Q) (y : Z) (xs : list Z) :
  forall ws g p,
    p ∈ fst (gen_walls_row density y xs ws g) ->
    p ∈ ws \/ (snd p = y /\ fst p ∈ xs).
Proof.
  induction xs as [|x xs IH]; intros ws g p Hp; simpl in Hp; [now left|].
  destruct (random_unit g) as [u g1].
  apply IH in Hp. destruct Hp as [Hp|[Hy Hx]].
  - destruct (negb _); [|now left].
    apply elem_of_union in Hp. destruct Hp as [Hp|Hp]; [|now left].
    apply elem_of_singleton in Hp. subst p. right. simpl. split; [reflexivity|].
    apply list_elem_of_here.
  - right. split; [exact Hy|]. now apply list_elem_of_further.
Qed.

Lemma gen_walls_rows_sound (density : Q) (ys : list Z) :
  forall ws g p,
    p ∈ fst (gen_walls_rows W density ys ws g) ->
    p ∈ ws \/ (snd p ∈ ys /\ fst p ∈ seqZ 0 W).
Proof.
  induction ys as [|y ys IH]; intros ws g p Hp; simpl in Hp; [now left|].
  pose proof (gen_walls_row_sound density y (seqZ 0 W) ws g p) as Hrow.
  destruct (gen_walls_row density y (seqZ 0 W) ws g) as [ws1 g1].
  apply IH in Hp. destruct Hp as [Hp|[Hy Hx]].
  - destruct (Hrow Hp) as [Hw|[Hy Hx]]; [now left|].
    right. split; [|exact Hx]. rewrite Hy. apply list_elem_of_here.
  - right. split; [now apply list_elem_of_further | exact Hx].
Qed.

Lemma gen_walls_row_none (density : Q) (y : Z) (xs : list Z) :
  (density <= 0)%Q ->
  forall ws g, fst (gen_walls_row density y xs ws g) = ws.
Proof.
  intros Hd. induction xs as [|x xs IH]; intros ws g; simpl; [reflexivity|].
  pose proof (random_unit_range g) as [Hu _].
  destruct (random_unit g) as [u g1]. simpl in Hu.
  assert (E : Qle_bool density u = true).
  { apply Qle_bool_iff. eapply Qle_trans; eauto. }
  rewrite E. simpl. apply IH.
Qed.

Lemma gen_walls_rows_none (density : Q) (ys : list Z) :
  (density <= 0)%Q ->
  forall ws g, fst (gen_walls_rows W density ys ws g) = ws.
Proof.
  intros Hd. induction ys as [|y ys IH]; intros ws g; simpl; [reflexivity|].
  pose proof (gen_walls_row_none density y (seqZ 0 W) Hd ws g) as Hrow.
  destruct (gen_walls_row density y (seqZ 0 W) ws g) as [ws1 g1].
  simpl in Hrow. subst ws1. apply IH.
Qed.

Lemma gen_walls_row_all (density : Q) (y : Z) (xs : list Z) :
  (1 <= density)%Q ->
  forall ws g p,
    p ∈ ws \/ (snd p = y /\ fst p ∈ xs) ->
    p ∈ fst (gen_walls_row density y xs ws g).
Proof.
  intros Hd. induction xs as [|x xs IH]; intros ws g p Hp; simpl.
  - destruct Hp as [Hp|[_ Hx]]; [exact Hp | inversion Hx].
  - pose proof (random_unit_range g) as [_ Hu].
    destruct (random_unit g) as [u g1]. simpl in Hu.
    assert (E : Qle_bool density u = false).
    { apply not_true_is_false. intros Hle. apply Qle_bool_iff in Hle.
      apply (Qlt_irrefl u). eapply Qlt_le_trans; [exact Hu|].
      eapply Qle_trans; eauto. }
    rewrite E. simpl. apply IH.
    destruct Hp as [Hp|[Hy Hx]]; [left; apply elem_of_union; now right|].
    apply elem_of_cons in Hx. destruct Hx as [Hx|Hx]; [|now right].
    left. apply elem_of_union. left. apply elem_of_singleton.
    destruct p as [px py]; simpl in *. now subst.
Qed.

Lemma gen_walls_rows_all (density : Q) (ys : list Z) :
  (1 <= density)%Q ->
  forall ws g p,
    p ∈ ws \/ (snd p ∈ ys /\ fst p ∈ seqZ 0 W) ->
    p ∈ fst (gen_walls_rows W density ys ws g).
Proof.
  intros Hd. induction ys as [|y ys IH]; intros ws g p Hp; simpl.
  - destruct Hp as [Hp|[Hy _]]; [exact Hp | inversion Hy].
  - pose proof (gen_walls_row_all density y (seqZ 0 W) Hd ws g p) as Hrow.
    destruct (gen_walls_row density y (seqZ 0 W) ws g) as [ws1 g1].
    simpl in Hrow. apply IH.
    destruct Hp as [Hp|[Hy Hx]]; [left; apply Hrow; now left|].
    apply elem_of_cons in Hy. destruct Hy as [Hy|Hy]; [|now right].
    left. apply Hrow. now right.
Qed.

Lemma gen_walls_sound (density : Q) (g : rng) (p : Vec) :
  p ∈ fst (gen_walls W H density g) -> in_bounds W H p = true.
Proof.
  unfold gen_walls. intros Hp. apply gen_walls_rows_sound in Hp.
  destruct Hp as [Hp|[Hy Hx]]; [set_solver|].
  apply elem_of_seqZ in Hy, Hx. apply in_bounds_spec. lia.
Qed.

Lemma ensure_reachable_spec (starts : list Vec) :
  forall (ws : gset Vec) (p : Vec),
    p ∈ ensure_reachable ws starts <-> p ∈ ws /\ p ∉ starts.
Proof.
  unfold ensure_reachable.
  induction starts as [|s starts IH]; intros ws p; simpl.
  - split; [intros Hp; split; [exact Hp | apply not_elem_of_nil] | tauto].
  - rewrite IH, not_elem_of_cons, elem_of_difference, elem_of_singleton. tauto.
Qed.

End WallFacts.

(** X8. [gen_walls] only builds walls on cells of the grid. *)
Theorem gen_walls_in_bounds (W H : Z) `{RS : RandomSource} {US : @UnitSource RS}
    (density : Q) (g : rng) (p : Vec) :
  p ∈ fst (gen_walls W H density g) -> in_bounds W H p = true.
Proof. apply gen_walls_sound. Qed.

(** With the draw 0.05 first, the cell (0, 0) is a wall of the 12 by 12 grid. *)
Lemma gen_walls_in_bounds_witness :
  in_bounds GRID_W GRID_H (0, 0) = true.
Proof.
  apply (@gen_walls_in_bounds GRID_W GRID_H tape_source tape_unit_source
           DEFAULT_DENSITY [5%nat; 50%nat] (0, 0)).
  refine (bool_decide_unpack _ _). vm_compute. exact I.
Defined.

(** X9. With a density of 0 or less [gen_walls] builds no wall at all. *)
Theorem gen_walls_no_density (W H : Z) `{RS : RandomSource} {US : @UnitSource RS}
    (density : Q) (g : rng) :
  (density <= 0)%Q -> fst (gen_walls W H density g) = ∅.
Proof. intros Hd. unfold gen_walls. now apply gen_walls_rows_none. Qed.

Lemma gen_walls_no_density_witness :
  fst (@gen_walls GRID_W GRID_H tape_source tape_unit_source 0 corner_tape) = ∅.
Proof.
  apply (@gen_walls_no_density GRID_W GRID_H tape_source tape_unit_source).
  unfold Qle; simpl; lia.
Defined.

(** X10. With a density of 1 or more [gen_walls] makes a wall of every cell of
    the grid. *)
Theorem gen_walls_full_density (W H : Z) `{RS : RandomSource} {US : @UnitSource RS}
    (density : Q) (g : rng) (p : Vec) :
  (1 <= density)%Q ->
  in_bounds W H p = true ->
  p ∈ fst (gen_walls W H density g).
Proof.
  intros Hd Hp. unfold gen_walls. apply gen_walls_rows_all; [exact Hd|].
  apply in_bounds_spec in Hp. right. rewrite !elem_of_seqZ. lia.
Qed.

Lemma gen_walls_full_density_witness :
  (11, 11) ∈ fst (@gen_walls GRID_W GRID_H tape_source tape_unit_source 1 corner_tape).
Proof.
  apply (@gen_walls_full_density GRID_W GRID_H tape_source tape_unit_source).
  - unfold Qle; simpl; lia.
  - reflexivity.
Defined.

(** X11. [ensure_reachable] removes the start cells from the walls and
    nothing else: a cell is a wall afterwards exactly when it was one and is
    not a start. *)
Theorem ensure_reachable_only_starts (ws : gset Vec) (starts : list Vec) (p : Vec) :
  p ∈ ensure_reachable ws starts <-> p ∈ ws /\ p ∉ starts.
Proof. apply ensure_reachable_spec. Qed.

(** X12. [ensure_reachable] gives no way out of a start cell: when every
    neighbour of the start [s] is off the grid or a wall that is not itself a
    start, the moves out of [s] are still [s] alone, and an agent placed there
    stays there at every step. *)
Theorem ensure_reachable_keeps_enclosure (W H : Z) `{RS : RandomSource}
    (ws : gset Vec) (starts : list Vec) (s : Vec) (g : rng) :
  (forall q, In q (neighbors s) -> in_bounds W H q = false \/ (q ∈ ws /\ q ∉ starts)) ->
  valid_moves W H s (ensure_reachable ws starts) = [s]
  /\ fst (random_step W H s (ensure_reachable ws starts) g) = s.
Proof.
  intros Hall.
  assert (Hno : ~ (exists q, legal_neighbor W H (ensure_reachable ws starts) s q)).
  { intros [q (Hd & Hb & Hw)].
    destruct (Hall q) as [Hout|Hin]; [now apply neighbors_spec | |].
    - apply in_bounds_spec in Hb. congruence.
    - apply Hw. now apply ensure_reachable_spec. }
  pose proof (valid_moves_none W H _ s Hno) as E.
  split; [exact E|].
  pose proof (random_step_In W H s (ensure_reachable ws starts) g) as Hin.
  rewrite E in Hin. destruct Hin as [Hs|[]]. now symmetry.
Qed.

(** The corner (0, 0) of the 12 by 12 grid behind walls on (1, 0) and (0, 1). *)
Lemma ensure_reachable_keeps_enclosure_witness :
  valid_moves GRID_W GRID_H (0, 0)
    (ensure_reachable {[ (0, 0); (1, 0); (0, 1) ]} [(0, 0); (11, 11)]) = [(0, 0)].
Proof.
  apply (@ensure_reachable_keeps_enclosure GRID_W GRID_H lcg_source
           {[ (0, 0); (1, 0); (0, 1) ]} [(0, 0); (11, 11)] (0, 0) 42).
  intros q [<-|[<-|[<-|[<-|[]]]]]; simpl.
  - right. split; [set_solver|]. rewrite !not_elem_of_cons. repeat split; try discriminate.
    apply not_elem_of_nil.
  - left. reflexivity.
  - right. split; [set_solver|]. rewrite !not_elem_of_cons. repeat split; try discriminate.
    apply not_elem_of_nil.
  - left. reflexivity.
Defined.

(* ------------------------------------------------------------------ *)
(** ** Rounds *)

Lemma mc_aggregate_returns (trials meets total_steps : Z) :
  exists stats, mc_aggregate trials meets total_steps = inr stats.
Proof.
  unfold mc_aggregate.
  destruct (Z.eqb_spec trials 0); destruct (Z.eqb_spec meets 0);
    rewrite ?true_div_nonzero by assumption; cbn [bind ret]; eauto.
Qed.

Lemma round_inv_set_show_mc (W H : Z) (self : Game) (s : option (pyfloat * pyfloat)) :
  round_inv W H self -> round_inv W H (set_show_mc self s).
Proof. intros Hi. exact Hi. Qed.

Lemma round_inv_set_auto_run (W H : Z) (self : Game) (r : bool) :
  round_inv W H self -> round_inv W H (set_auto_run self r).
Proof. intros Hi. exact Hi. Qed.

Section RoundFacts.

Variables W H : Z.
Context `{RS : RandomSource} {US : @UnitSource RS}.

Lemma reset_round_walls (self : Game) (g : rng) (p : Vec) :
  p ∈ walls (fst (reset_round W H self g)) ->
  in_bounds W H p = true /\ p <> (0, 0) /\ p <> (W - 1, H - 1).
Proof.
  unfold reset_round.
  destruct (obstacles_on self).
  - pose proof (gen_walls_sound W H DEFAULT_DENSITY g p) as Hs.
    destruct (gen_walls W H DEFAULT_DENSITY g) as [ws1 g1]. cbn [fst walls] in *.
    rewrite ensure_reachable_spec, !not_elem_of_cons. tauto.
  - cbn [fst walls]. rewrite ensure_reachable_spec. intros [Hp _].
    now apply not_elem_of_empty in Hp.
Qed.

Lemma reset_round_inv (self : Game) (g : rng) :
  1 <= W -> 1 <= H -> round_inv W H (fst (reset_round W H self g)).
Proof.
  intros HW HH.
  pose proof (reset_round_walls self g) as Hw.
  unfold reset_round in *.
  destruct (if obstacles_on self then gen_walls W H DEFAULT_DENSITY g else (∅, g))
    as [ws1 g1].
  cbn [fst walls] in Hw. unfold round_inv, safe_cell. cbn.
  assert (Ha : in_bounds W H (0, 0) = true) by (apply in_bounds_spec; simpl; lia).
  assert (Hb : in_bounds W H (W - 1, H - 1) = true) by (apply in_bounds_spec; simpl; lia).
  assert (Hna : (0, 0) ∉ ensure_reachable ws1 [(0, 0); (W - 1, H - 1)]).
  { intros Hin. apply Hw in Hin. tauto. }
  assert (Hnb : (W - 1, H - 1) ∉ ensure_reachable ws1 [(0, 0); (W - 1, H - 1)]).
  { intros Hin. apply Hw in Hin. tauto. }
  repeat split; try assumption; try lia; discriminate.
Qed.

Lemma step_random_vs_random_inv (self : Game) (g : rng) :
  round_inv W H self -> round_inv W H (fst (step_random_vs_random W H self g)).
Proof.
  intros Hi. destruct (met self) eqn:Hm.
  - unfold step_random_vs_random. now rewrite Hm.
  - rewrite step_random_vs_random_not_met by exact Hm.
    destruct Hi as (Hb & _ & Hr & _ & Ht & _).
    pose proof (random_step_In W H (pos (blue self)) (walls self) g) as Ha1.
    unfold advance_turn_snapshot.
    destruct (random_step W H (pos (blue self)) (walls self) g) as [a1 g1].
    pose proof (random_step_In W H (pos (red self)) (walls self) g1) as Hb1.
    destruct (random_step W H (pos (red self)) (walls self) g1) as [b1 g2].
    cbn [fst] in *. unfold round_inv. cbn.
    split; [exact (valid_moves_safe W H _ _ _ Hb Ha1)|]. split; [exact Hb|].
    split; [exact (valid_moves_safe W H _ _ _ Hr Hb1)|]. split; [exact Hr|].
    split; [lia|]. intros E. split; [exact E | lia].
Qed.

Lemma step_player_vs_random_inv (self : Game) (player_dir : Vec) (g : rng) :
  round_inv W H self ->
  round_inv W H (fst (step_player_vs_random W H self player_dir g)).
Proof.
  intros Hi. unfold step_player_vs_random. destruct (met self) eqn:Hm; [exact Hi|].
  destruct Hi as (Hb & _ & Hr & _ & Ht & _).
  set (target := (fst (pos (blue self)) + fst player_dir,
                  snd (pos (blue self)) + snd player_dir)).
  cbn [pos set_prev].
  pose proof (random_step_In W H (pos (red self)) (walls self) g) as Hb1.
  destruct (random_step W H (pos (red self)) (walls self) g) as [b1 g1].
  cbn [fst] in *. unfold round_inv.
  destruct (in_bounds W H target && bool_decide (target ∉ walls self)) eqn:Hc; cbn.
  - apply andb_true_iff in Hc. destruct Hc as [Hc1 Hc2].
    apply bool_decide_eq_true in Hc2.
    split; [split; assumption|]. split; [exact Hb|].
    split; [exact (valid_moves_safe W H _ _ _ Hr Hb1)|]. split; [exact Hr|].
    split; [lia|]. intros E. split; [exact E | lia].
  - split; [exact Hb|]. split; [exact Hb|].
    split; [exact (valid_moves_safe W H _ _ _ Hr Hb1)|]. split; [exact Hr|].
    split; [lia|]. intros E. split; [exact E | lia].
Qed.

(** The chain of tests of the [KEYDOWN] branch as a table: each key has one
    action, in the mode that binds it. *)
Lemma on_keydown_dispatch (self : Game) (key : Key) (g : rng) :
  on_keydown W H self key g =
  match key with
  | K_ESCAPE | K_q => Exit
  | K_m =>
    let '(s, g') :=
      reset_round W H
        (set_mode self match mode self with
                       | PLAYER_VS_RANDOM => RANDOM_VS_RANDOM
                       | RANDOM_VS_RANDOM => PLAYER_VS_RANDOM
                       end) g in
    Continue s g'
  | K_r => let '(s, g') := reset_round W H self g in Continue s g'
  | K_o =>
    let '(s, g') :=
      reset_round W H (set_obstacles_on self (negb (obstacles_on self))) g in
    Continue s g'
  | K_p =>
    match fst (fst (monte_carlo W H self MC_TRIALS MC_MAX_STEPS g)) with
    | inl e => Raised e
    | inr stats =>
      Continue (set_show_mc self (Some stats))
               (snd (monte_carlo W H self MC_TRIALS MC_MAX_STEPS g))
    end
  | K_SPACE =>
    match mode self with
    | RANDOM_VS_RANDOM =>
      let '(s, g') := step_random_vs_random W H self g in Continue s g'
    | PLAYER_VS_RANDOM => Continue self g
    end
  | K_RETURN =>
    match mode self with
    | RANDOM_VS_RANDOM => Continue (set_auto_run self (negb (auto_run self))) g
    | PLAYER_VS_RANDOM => Continue self g
    end
  | K_other => Continue self g
  | _ =>
    match mode self, dir_map key with
    | PLAYER_VS_RANDOM, Some d =>
      let '(s, g') := step_player_vs_random W H self d g in Continue s g'
    | _, _ => Continue self g
    end
  end.
Proof.
  unfold on_keydown.
  destruct key; try reflexivity;
    try (cbn [dir_map ret]; destruct (mode self); [|reflexivity];
         destruct (step_player_vs_random W H self _ g); reflexivity).
  - destruct (reset_round W H _ g) as [s g']. cbn [ret].
    destruct (mode s); reflexivity.
  - destruct (reset_round W H self g) as [s g']. cbn [ret].
    destruct (mode s); reflexivity.
  - destruct (reset_round W H _ g) as [s g']. cbn [ret].
    destruct (mode s); reflexivity.
  - rewrite monte_carlo_unfold. cbn [fst snd].
    destruct (mc_aggregate _ _ _) as [e|stats]; cbn [bind ret]; [reflexivity|].
    cbn [mode set_show_mc]. destruct (mode self); reflexivity.
  - cbn [ret]. destruct (mode self); [reflexivity|].
    destruct (step_random_vs_random W H self g); reflexivity.
Qed.

Lemma on_keydown_inv (self : Game) (key : Key) (g : rng) :
  1 <= W -> 1 <= H -> round_inv W H self ->
  match on_keydown W H self key g with
  | Exit => key = K_ESCAPE \/ key = K_q
  | Raised _ => False
  | Continue self' _ => round_inv W H self'
  end.
Proof.
  intros HW HH Hi. rewrite on_keydown_dispatch.
  destruct key; auto;
    try (destruct (mode self); cbn [dir_map]; [|exact Hi];
         pose proof (step_player_vs_random_inv self) as Hs;
         match goal with
         | |- context [step_player_vs_random W H self ?d g] =>
           specialize (Hs d g Hi);
           destruct (step_player_vs_random W H self d g); exact Hs
         end).
  - pose proof (reset_round_inv (set_mode self match mode self with
                                              | PLAYER_VS_RANDOM => RANDOM_VS_RANDOM
                                              | RANDOM_VS_RANDOM => PLAYER_VS_RANDOM
                                              end) g HW HH) as Hr.
    destruct (reset_round W H _ g). exact Hr.
  - pose proof (reset_round_inv self g HW HH) as Hr.
    destruct (reset_round W H self g). exact Hr.
  - pose proof (reset_round_inv (set_obstacles_on self (negb (obstacles_on self))) g HW HH)
      as Hr.
    destruct (reset_round W H _ g). exact Hr.
  - rewrite monte_carlo_unfold. cbn [fst snd].
    destruct (mc_aggregate_returns MC_TRIALS
                (meeting_trials (mc_outcomes W H (Z.to_nat MC_TRIALS) MC_MAX_STEPS g))
                (step_sum (mc_outcomes W H (Z.to_nat MC_TRIALS) MC_MAX_STEPS g)))
      as [stats ->].
    exact Hi.
  - destruct (mode self); [exact Hi|].
    pose proof (step_random_vs_random_inv self g Hi) as Hs.
    destruct (step_random_vs_random W H self g). exact Hs.
  - destruct (mode self); exact Hi.
Qed.

Lemma auto_run_tick_inv (self : Game) (ticks : Z) (g : rng) :
  round_inv W H self -> round_inv W H (fst (auto_run_tick W H self ticks g)).
Proof.
  intros Hi. unfold auto_run_tick.
  destruct (mode self); [exact Hi|].
  destruct (auto_run self && negb (met self)); [|exact Hi].
  destruct (ticks mod 3 =? 0); [|exact Hi].
  now apply step_random_vs_random_inv.
Qed.

Lemma handle_events_inv (events : list Event) :
  1 <= W -> 1 <= H ->
  forall self g,
    round_inv W H self ->
    match handle_events W H self events g with
    | Exit => True
    | Raised _ => False
    | Continue self' _ => round_inv W H self'
    end.
Proof.
  intros HW HH. induction events as [|e events IH]; intros self g Hi; [exact Hi|].
  cbn [handle_events]. destruct e as [|key|]; cbn [on_event].
  - exact I.
  - pose proof (on_keydown_inv self key g HW HH Hi) as Hk.
    destruct (on_keydown W H self key g) as [|e|s' g']; [exact I | exact Hk |].
    now apply IH.
  - now apply IH.
Qed.

Lemma run_inv (frames : list (list Event * Z)) :
  1 <= W -> 1 <= H ->
  forall self g,
    round_inv W H self ->
    match run W H self frames g with
    | Exit => True
    | Raised _ => False
    | Continue self' _ => round_inv W H self'
    end.
Proof.
  intros HW HH. induction frames as [|[events ticks] frames IH]; intros self g Hi;
    [exact Hi|].
  cbn [run]. unfold run_frame.
  pose proof (handle_events_inv events HW HH self g Hi) as He.
  destruct (handle_events W H self events g) as [|e|s1 g1]; [exact I | exact He |].
  pose proof (auto_run_tick_inv s1 ticks g1 He) as Ht.
  destruct (auto_run_tick W H s1 ticks g1) as [s2 g2]. now apply IH.
Qed.

End RoundFacts.

Lemma empty_minus_starts (a b : Vec) : (∅ : gset Vec) ∖ {[ a ]} ∖ {[ b ]} = ∅.
Proof.
  apply set_eq. intros p. rewrite !elem_of_difference.
  split; [intros [[Hp _] _]; exact Hp | intros Hp; now apply not_elem_of_empty in Hp].
Qed.

Lemma fresh_game_inv : round_inv GRID_W GRID_H fresh_game.
Proof.
  unfold round_inv, safe_cell, fresh_game; cbn.
  repeat split; try reflexivity; try discriminate; try apply not_elem_of_empty.
Qed.

(** X13. On a grid of at least one cell [reset_round] starts a round in which
    both agents stand in bounds and off the walls, blue in (0, 0) and red in
    (W - 1, H - 1) with previous equal to current, with 0 turns, not met, the
    auto-run off and no stats shown; the mode and the obstacle toggle are
    kept; every wall is a cell of the grid and no start is a wall; with the
    obstacles off there is no wall and the random source is not used. *)
Theorem reset_round_fresh (W H : Z) `{RS : RandomSource} {US : @UnitSource RS}
    (self : Game) (g : rng) :
  1 <= W -> 1 <= H ->
  let self' := fst (reset_round W H self g) in
  round_inv W H self'
  /\ turns self' = 0 /\ met self' = false
  /\ auto_run self' = false /\ show_mc self' = None
  /\ mode self' = mode self /\ obstacles_on self' = obstacles_on self
  /\ blue self' = mkAgent (0, 0) (0, 0) BLUE
  /\ red self' = mkAgent (W - 1, H - 1) (W - 1, H - 1) RED
  /\ (forall p, p ∈ walls self' ->
        in_bounds W H p = true /\ p <> (0, 0) /\ p <> (W - 1, H - 1))
  /\ (obstacles_on self = false ->
      walls self' = ∅ /\ snd (reset_round W H self g) = g).
Proof.
  intros HW HH self'.
  split; [now apply reset_round_inv|].
  assert (Hw : forall p, p ∈ walls self' ->
                 in_bounds W H p = true /\ p <> (0, 0) /\ p <> (W - 1, H - 1))
    by apply reset_round_walls.
  unfold self' in *. unfold reset_round in *.
  destruct (obstacles_on self) eqn:Ho.
  - destruct (gen_walls W H DEFAULT_DENSITY g) as [ws1 g1]. cbn in *.
    repeat split; try reflexivity; try (now apply Hw); discriminate.
  - cbn in *. repeat split; try reflexivity; try (now apply Hw).
    apply empty_minus_starts.
Qed.

(** A round that has met, reset with the obstacles off. *)
Lemma reset_round_fresh_witness :
  let met_game :=
    set_round fresh_game (mkAgent (4, 4) (4, 5) BLUE) (mkAgent (4, 4) (3, 4) RED) 7 true in
  let self' := fst (@reset_round GRID_W GRID_H tape_source tape_unit_source
                      met_game corner_tape) in
  round_inv GRID_W GRID_H self' /\ met self' = false /\ walls self' = ∅.
Proof.
  intros met_game self'.
  pose proof (@reset_round_fresh GRID_W GRID_H tape_source tape_unit_source
                met_game corner_tape ltac:(unfold GRID_W; lia) ltac:(unfold GRID_H; lia))
    as Hw.
  cbn zeta in Hw. fold self' in Hw.
  destruct Hw as (Hi & _ & Hm & _ & _ & _ & _ & _ & _ & _ & Hoff).
  split; [exact Hi|]. split; [exact Hm|]. exact (proj1 (Hoff eq_refl)).
Defined.

(** X14. A turn of [step_random_vs_random] keeps the agents on the grid and
    off the walls, with their previous cells, and keeps the turn count
    non-negative and the met flag backed by an encounter. *)
Theorem step_random_vs_random_keeps_round (W H : Z) `{RS : RandomSource}
    (self : Game) (g : rng) :
  round_inv W H self -> round_inv W H (fst (step_random_vs_random W H self g)).
Proof. apply step_random_vs_random_inv. Qed.

Lemma step_random_vs_random_keeps_round_witness :
  round_inv GRID_W GRID_H (fst (@step_random_vs_random GRID_W GRID_H lcg_source fresh_game 42)).
Proof.
  apply (@step_random_vs_random_keeps_round GRID_W GRID_H lcg_source fresh_game 42).
  exact fresh_game_inv.
Defined.

(** X15. A turn of [step_player_vs_random] keeps the agents on the grid and
    off the walls whatever direction is asked for, also one that is not a
    unit step. *)
Theorem step_player_vs_random_keeps_round (W H : Z) `{RS : RandomSource}
    (self : Game) (player_dir : Vec) (g : rng) :
  round_inv W H self ->
  round_inv W H (fst (step_player_vs_random W H self player_dir g)).
Proof. apply step_player_vs_random_inv. Qed.

Lemma step_player_vs_random_keeps_round_witness :
  round_inv GRID_W GRID_H
    (fst (@step_player_vs_random GRID_W GRID_H lcg_source fresh_game (-5, 40) 42)).
Proof.
  apply (@step_player_vs_random_keeps_round GRID_W GRID_H lcg_source fresh_game (-5, 40) 42).
  exact fresh_game_inv.
Defined.

(** X16. In [step_player_vs_random] on a round that has not met, a direction
    that leads to a cell in bounds and not a wall moves the player there, its
    previous position becoming the cell it left; the random agent takes one
    step among its legal moves, the turn counter grows by 1 and the met flag
    is the encounter check on the agents after the turn. *)
Theorem player_legal_move (W H : Z) `{RS : RandomSource}
    (self : Game) (player_dir : Vec) (g : rng) :
  met self = false ->
  let target := (fst (pos (blue self)) + fst player_dir,
                 snd (pos (blue self)) + snd player_dir) in
  in_bounds W H target = true ->
  target ∉ walls self ->
  let r1 := random_step W H (pos (red self)) (walls self) g in
  let self' := fst (step_player_vs_random W H self player_dir g) in
  pos (blue self') = target
  /\ prev (blue self') = pos (blue self)
  /\ pos (red self') = fst r1
  /\ In (pos (red self')) (valid_moves W H (pos (red self)) (walls self))
  /\ prev (red self') = pos (red self)
  /\ snd (step_player_vs_random W H self player_dir g) = snd r1
  /\ turns self' = turns self + 1
  /\ met self' = encounter (blue self') (red self').
Proof.
  intros Hm target Hb Hw r1 self'.
  pose proof (random_step_In W H (pos (red self)) (walls self) g) as Hr.
  fold r1 in Hr.
  assert (Hc : in_bounds W H target && bool_decide (target ∉ walls self) = true).
  { apply andb_true_iff. split; [exact Hb | now apply bool_decide_eq_true]. }
  unfold self', step_player_vs_random. rewrite Hm. fold target. rewrite Hc.
  cbn [pos set_prev]. fold r1.
  destruct r1 as [pr g1]. cbn [fst snd] in *. cbn.
  repeat split. exact Hr.
Qed.

Lemma player_legal_move_witness :
  pos (blue (fst (@step_player_vs_random GRID_W GRID_H lcg_source fresh_game (1, 0) 42)))
  = (1, 0).
Proof.
  pose proof (@player_legal_move GRID_W GRID_H lcg_source fresh_game (1, 0) 42
                eq_refl eq_refl ltac:(apply not_elem_of_empty)) as Hw.
  cbn zeta in Hw. destruct Hw as (Hp & _). exact Hp.
Defined.

(* ------------------------------------------------------------------ *)
(** ** Keys and the main loop *)

(** X17. Whatever events and clock values the main loop is fed after a round
    with both agents on the grid and off the walls, it raises nothing and,
    unless it exits, the agents are still on the grid and off the walls, the
    turn count is non-negative and a set met flag is backed by an encounter. *)
Theorem run_keeps_round (W H : Z) `{RS : RandomSource} {US : @UnitSource RS}
    (self : Game) (frames : list (list Event * Z)) (g : rng) :
  1 <= W -> 1 <= H ->
  round_inv W H self ->
  match run W H self frames g with
  | Exit => True
  | Raised _ => False
  | Continue self' _ => round_inv W H self'
  end.
Proof. intros HW HH Hi. now apply run_inv. Qed.

(** The player walks right twice, the mode is switched, one random turn is
    asked for and the auto-run is started for two frames. *)
Lemma run_keeps_round_witness :
  match @run GRID_W GRID_H tape_source tape_unit_source fresh_game
          [([KEYDOWN K_RIGHT; OTHER_EVENT; KEYDOWN K_d], 1);
           ([KEYDOWN K_m; KEYDOWN K_SPACE; KEYDOWN K_RETURN], 3);
           ([], 6)]
          corner_tape with
  | Exit => True
  | Raised _ => False
  | Continue self' _ => round_inv GRID_W GRID_H self'
  end.
Proof.
  apply (@run_keeps_round GRID_W GRID_H tape_source tape_unit_source).
  - unfold GRID_W; lia.
  - unfold GRID_H; lia.
  - exact fresh_game_inv.
Defined.

(** X18. A key that the current mode does not bind changes nothing: in
    player mode the space and return keys, in random mode the arrows and
    W, A, S, D, and in both modes any key without an action. *)
Theorem unbound_key_changes_nothing (W H : Z) `{RS : RandomSource} {US : @UnitSource RS}
    (self : Game) (key : Key) (g : rng) :
  match mode self with
  | PLAYER_VS_RANDOM => key = K_SPACE \/ key = K_RETURN \/ key = K_other
  | RANDOM_VS_RANDOM => is_Some (dir_map key) \/ key = K_other
  end ->
  on_keydown W H self key g = Continue self g.
Proof.
  intros Hk. rewrite on_keydown_dispatch.
  destruct (mode self) eqn:Hmode.
  - destruct Hk as [-> | [-> | ->]]; reflexivity.
  - destruct Hk as [Hs | Hk]; [|subst key; reflexivity].
    destruct Hs as [d Hd]. destruct key; try discriminate Hd; reflexivity.
Qed.

Lemma unbound_key_changes_nothing_witness :
  @on_keydown GRID_W GRID_H tape_source tape_unit_source fresh_game K_SPACE corner_tape
  = @Continue tape_source fresh_game corner_tape.
Proof.
  apply (@unbound_key_changes_nothing GRID_W GRID_H tape_source tape_unit_source
           fresh_game K_SPACE corner_tape).
  left. reflexivity.
Defined.

(** X19. The statistics key never fails and touches nothing of the round: it
    stores the stats of [monte_carlo] with the default trial count and step
    cap in [show_mc] and leaves the mode, the agents, the walls, the turn
    count and the met flag as they were. *)
Theorem stats_key_only_sets_show_mc (W H : Z) `{RS : RandomSource} {US : @UnitSource RS}
    (self : Game) (g : rng) :
  exists stats,
    fst (fst (monte_carlo W H self MC_TRIALS MC_MAX_STEPS g)) = inr stats
    /\ on_keydown W H self K_p g
       = Continue (set_show_mc self (Some stats))
                  (snd (monte_carlo W H self MC_TRIALS MC_MAX_STEPS g)).
Proof.
  rewrite on_keydown_dispatch, monte_carlo_unfold. cbn [fst snd].
  destruct (mc_aggregate_returns MC_TRIALS
              (meeting_trials (mc_outcomes W H (Z.to_nat MC_TRIALS) MC_MAX_STEPS g))
              (step_sum (mc_outcomes W H (Z.to_nat MC_TRIALS) MC_MAX_STEPS g)))
    as [stats ->].
  exists stats. split; reflexivity.
Qed.

(** X20. Once the round has met only a reset (the keys M, R, O) starts play
    again: any other key that does not quit, and the auto-run step, leave the
    agents, the walls, the turn count and the met flag unchanged. *)
Theorem met_round_only_reset (W H : Z) `{RS : RandomSource} {US : @UnitSource RS}
    (self : Game) (key : Key) (ticks : Z) (g : rng) :
  met self = true ->
  key <> K_m -> key <> K_r -> key <> K_o ->
  auto_run_tick W H self ticks g = (self, g)
  /\ match on_keydown W H self key g with
     | Exit => key = K_ESCAPE \/ key = K_q
     | Raised _ => False
     | Continue self' _ =>
       blue self' = blue self /\ red self' = red self /\ walls self' = walls self
       /\ turns self' = turns self /\ met self' = true
     end.
Proof.
  intros Hm Hkm Hkr Hko. split.
  - unfold auto_run_tick. rewrite Hm. destruct (mode self); [reflexivity|].
    now rewrite andb_false_r.
  - rewrite on_keydown_dispatch.
    assert (Hrr : step_random_vs_random W H self g = (self, g))
      by (unfold step_random_vs_random; now rewrite Hm).
    assert (Hpr : forall d, step_player_vs_random W H self d g = (self, g))
      by (intros d; unfold step_player_vs_random; now rewrite Hm).
    destruct key; try congruence; auto;
      try (destruct (mode self); cbn [dir_map]; rewrite ?Hpr, ?Hrr; now auto).
    rewrite monte_carlo_unfold. cbn [fst snd].
    destruct (mc_aggregate_returns MC_TRIALS
                (meeting_trials (mc_outcomes W H (Z.to_nat MC_TRIALS) MC_MAX_STEPS g))
                (step_sum (mc_outcomes W H (Z.to_nat MC_TRIALS) MC_MAX_STEPS g)))
      as [stats ->].
    cbn. now auto.
Qed.

Lemma met_round_only_reset_witness :
  let met_game :=
    set_round (set_mode fresh_game RANDOM_VS_RANDOM)
      (mkAgent (4, 4) (4, 5) BLUE) (mkAgent (4, 4) (3, 4) RED) 7 true in
  @auto_run_tick GRID_W GRID_H tape_source met_game 3 corner_tape = (met_game, corner_tape)
  /\ @on_keydown GRID_W GRID_H tape_source tape_unit_source met_game K_SPACE corner_tape
     = @Continue tape_source met_game corner_tape.
Proof.
  intros met_game.
  pose proof (@met_round_only_reset GRID_W GRID_H tape_source tape_unit_source
                met_game K_SPACE 3 corner_tape eq_refl
                ltac:(discriminate) ltac:(discriminate) ltac:(discriminate)) as [Ht _].
  split; [exact Ht | reflexivity].
Defined.

(** X21. Each of the keys M, R and O starts a fresh round (0 turns, not met,
    auto-run off, no stats shown, agents in their corners); M flips the mode
    and keeps the obstacle toggle, O flips the obstacle toggle and keeps the
    mode, R keeps both. *)
Theorem reset_keys_start_fresh_round (W H : Z) `{RS : RandomSource} {US : @UnitSource RS}
    (self : Game) (key : Key) (g : rng) :
  key = K_m \/ key = K_r \/ key = K_o ->
  exists self' g',
    on_keydown W H self key g = Continue self' g'
    /\ turns self' = 0 /\ met self' = false
    /\ auto_run self' = false /\ show_mc self' = None
    /\ blue self' = mkAgent (0, 0) (0, 0) BLUE
    /\ red self' = mkAgent (W - 1, H - 1) (W - 1, H - 1) RED
    /\ (mode self' = mode self <-> key <> K_m)
    /\ (obstacles_on self' = obstacles_on self <-> key <> K_o).
Proof.
  intros Hk. rewrite on_keydown_dispatch.
  destruct Hk as [-> | [-> | ->]]; unfold reset_round;
    match goal with
    | |- context [if ?c then gen_walls W H DEFAULT_DENSITY g else _] =>
      destruct (if c then gen_walls W H DEFAULT_DENSITY g else (∅, g)) as [ws1 g1]
    end;
    do 2 eexists; (split; [reflexivity|]); cbn;
    repeat split; try reflexivity; try congruence; try discriminate.
  - destruct (mode self); discriminate.
  - destruct (obstacles_on self); discriminate.
Qed.

Lemma reset_keys_start_fresh_round_witness :
  exists self' g',
    @on_keydown GRID_W GRID_H tape_source tape_unit_source fresh_game K_m corner_tape
      = Continue self' g'
    /\ mode self' = RANDOM_VS_RANDOM.
Proof.
  destruct (@reset_keys_start_fresh_round GRID_W GRID_H tape_source tape_unit_source
              fresh_game K_m corner_tape (or_introl eq_refl))
    as (self' & g' & E & _).
  exists self', g'. split; [exact E|].
  cbv in E. injection E as <- _. reflexivity.
Defined.

(* ------------------------------------------------------------------ *)
(** ** More on the Monte Carlo trials *)

Lemma valid_moves_near (W H : Z) (ws : gset Vec) (p q : Vec) :
  In q (valid_moves W H p ws) -> manhattan q p <= 1.
Proof.
  intros Hq. unfold manhattan.
  destruct (valid_moves_In W H ws p q Hq) as [->|(Hd & _)]; lia.
Qed.

Lemma open_grid_has_move (W H : Z) (p : Vec) :
  2 <= W \/ 2 <= H ->
  in_bounds W H p = true ->
  exists q, legal_neighbor W H ∅ p q.
Proof.
  intros Hsz Hp. apply in_bounds_spec in Hp. destruct p as [x y]; simpl in Hp.
  unfold legal_neighbor.
  destruct Hsz as [HW|HH].
  - destruct (Z_lt_dec (x + 1) W).
    + exists (x + 1, y). simpl. repeat split; try lia. apply not_elem_of_empty.
    + exists (x - 1, y). simpl. repeat split; try lia. apply not_elem_of_empty.
  - destruct (Z_lt_dec (y + 1) H).
    + exists (x, y + 1). simpl. repeat split; try lia. apply not_elem_of_empty.
    + exists (x, y - 1). simpl. repeat split; try lia. apply not_elem_of_empty.
Qed.

Lemma legal_neighbor_parity (W H : Z) (ws : gset Vec) (p q : Vec) :
  legal_neighbor W H ws p q ->
  Z.odd (fst q + snd q) = negb (Z.odd (fst p + snd p)).
Proof.
  intros (Hd & _).
  assert (Hc : fst q + snd q = Z.succ (fst p + snd p)
               \/ fst q + snd q = Z.pred (fst p + snd p)) by lia.
  destruct Hc as [-> | ->]; rewrite Z.negb_odd.
  - apply Z.odd_succ.
  - apply Z.odd_pred.
Qed.

Section TrialFacts.

Variables W H : Z.
Context `{RS : RandomSource}.

Lemma mc_steps_min (n : nat) :
  forall a b a_prev b_prev steps g k g',
    manhattan a a_prev <= 1 -> manhattan b b_prev <= 1 ->
    mc_steps W H n a b a_prev b_prev steps g = (Some k, g') ->
    manhattan a b <= 2 * (k - steps).
Proof.
  induction n as [|n IH]; intros a b a_prev b_prev steps g k g' Ha Hb E;
    [discriminate|].
  rewrite mc_steps_succ in E. cbn zeta in E.
  pose proof (valid_moves_near W H ∅ a _ (random_step_In W H a ∅ g)) as Ha1.
  pose proof (valid_moves_near W H ∅ b _
                (random_step_In W H b ∅ (snd (random_step W H a ∅ g)))) as Hb1.
  set (a1 := fst (random_step W H a ∅ g)) in *.
  set (b1 := fst (random_step W H b ∅ (snd (random_step W H a ∅ g)))) in *.
  destruct (_ || _) eqn:Htest.
  - inversion E; subst k. clear E.
    apply orb_true_iff in Htest. destruct Htest as [Hmeet|Hcross].
    + apply bool_decide_eq_true in Hmeet. rewrite Hmeet in Ha1.
      unfold manhattan in *. lia.
    + apply andb_true_iff in Hcross. destruct Hcross as [E1 E2].
      apply bool_decide_eq_true in E1, E2. rewrite E1 in Ha1. rewrite E2 in Hb1.
      unfold manhattan in *. lia.
  - apply IH in E; [|exact Ha1|exact Hb1].
    unfold manhattan in *. lia.
Qed.

Lemma mc_steps_full (n : nat) :
  forall a b a_prev b_prev steps g g',
    mc_steps W H n a b a_prev b_prev steps g = (None, g') ->
    length (mc_path W H n a b a_prev b_prev g) = n.
Proof.
  induction n as [|n IH]; intros a b a_prev b_prev steps g g' E; [reflexivity|].
  rewrite mc_steps_succ in E. rewrite mc_path_succ. cbn zeta in *.
  destruct (_ || _); [discriminate|].
  cbn [length]. f_equal. eapply IH; eauto.
Qed.

Lemma mc_path_never_crosses (n : nat) :
  2 <= W \/ 2 <= H ->
  forall a b a_prev b_prev g,
    in_bounds W H a = true -> in_bounds W H b = true ->
    Z.odd (fst a + snd a) = Z.odd (fst b + snd b) ->
    never_crosses a b (mc_path W H n a b a_prev b_prev g).
Proof.
  intros Hsz. induction n as [|n IH]; intros a b a_prev b_prev g Ha Hb Hpar;
    [exact I|].
  rewrite mc_path_succ. cbn zeta.
  pose proof (random_step_In W H a ∅ g) as Ha1.
  pose proof (random_step_In W H b ∅ (snd (random_step W H a ∅ g))) as Hb1.
  set (a1 := fst (random_step W H a ∅ g)) in *.
  set (b1 := fst (random_step W H b ∅ (snd (random_step W H a ∅ g)))) in *.
  apply (valid_moves_some W H ∅ a (open_grid_has_move W H a Hsz Ha)) in Ha1.
  apply (valid_moves_some W H ∅ b (open_grid_has_move W H b Hsz Hb)) in Hb1.
  pose proof (legal_neighbor_parity _ _ _ _ _ Ha1) as Pa.
  pose proof (legal_neighbor_parity _ _ _ _ _ Hb1) as Pb.
  cbn [never_crosses]. split; [|split].
  - intros E. rewrite E, Hpar in Pa. destruct (Z.odd (fst b + snd b)); discriminate.
  - intros E. rewrite E, Hpar in Pb. destruct (Z.odd (fst b + snd b)); discriminate.
  - destruct (_ || _); [exact I|]. apply IH.
    + apply in_bounds_spec. apply Ha1.
    + apply in_bounds_spec. apply Hb1.
    + now rewrite Pa, Pb, Hpar.
Qed.

End TrialFacts.

(** X22. From its corners the two agents of a trial cannot meet early: a
    trial on a grid of [W] by [H] cells that meets at turn [k] has
    [W + H - 2 <= 2 * k]; on the 12 by 12 grid no trial meets before turn 11. *)
Theorem mc_trial_min_steps (W H : Z) `{RS : RandomSource}
    (max_steps : Z) (g : rng) (k : Z) (g' : rng) :
  1 <= W -> 1 <= H ->
  mc_trial W H max_steps g = (Some k, g') ->
  W + H - 2 <= 2 * k.
Proof.
  intros HW HH E. unfold mc_trial in E.
  apply mc_steps_min in E; unfold manhattan in *; simpl in *; lia.
Qed.

(** The scripted trial meets at turn 11, the earliest possible. *)
Lemma mc_trial_min_steps_witness :
  GRID_W + GRID_H - 2 <= 2 * 11.
Proof.
  apply (@mc_trial_min_steps GRID_W GRID_H tape_source MC_MAX_STEPS corner_tape 11 []).
  - unfold GRID_W; lia.
  - unfold GRID_H; lia.
  - vm_compute. reflexivity.
Defined.

(** X23. With a step cap too small for the agents to reach each other
    ([2 * max_steps < W + H - 2]) no trial meets, and [monte_carlo] returns
    the infinity sentinel and a meet rate of 0 whatever the random source. *)
Theorem monte_carlo_cap_too_small (W H : Z) `{RS : RandomSource}
    (self : Game) (trials max_steps : Z) (g : rng) :
  1 <= W -> 1 <= H ->
  2 * max_steps < W + H - 2 ->
  fst (fst (monte_carlo W H self trials max_steps g)) = inr (PosInf, Fin 0%Q).
Proof.
  intros HW HH Hcap. rewrite monte_carlo_unfold. cbn [fst].
  assert (Hnone : forall n g0, omap id (mc_outcomes W H n max_steps g0) = []).
  { induction n as [|n IH]; intros g0; [reflexivity|].
    cbn [mc_outcomes].
    destruct (mc_trial W H max_steps g0) as [[k|] g1] eqn:E.
    - pose proof (mc_trial_bounds W H _ _ _ _ E) as Hk.
      unfold mc_trial in E.
      apply mc_steps_min in E;
        [|unfold manhattan; simpl; lia|unfold manhattan; simpl; lia].
      unfold manhattan in E; simpl in E. lia.
    - change (omap id (None :: ?l)) with (omap id l). apply IH. }
  unfold meeting_trials, step_sum. rewrite Hnone. cbn [length fold_right Z.of_nat].
  unfold mc_aggregate. cbn [Z.eqb].
  destruct (Z.eqb_spec trials 0) as [Ht|Ht]; [reflexivity|].
  rewrite true_div_nonzero by exact Ht. now rewrite Qred_zero_div.
Qed.

Lemma monte_carlo_cap_too_small_witness :
  fst (fst (@monte_carlo GRID_W GRID_H lcg_source fresh_game MC_TRIALS 10 42))
  = inr (PosInf, Fin 0%Q).
Proof.
  apply (@monte_carlo_cap_too_small GRID_W GRID_H lcg_source);
    unfold GRID_W, GRID_H; lia.
Defined.

(** X24. On a grid of at least two cells with [W + H] even, as the 12 by 12
    grid is, no agent of a trial ever steps onto the cell the other one is
    leaving: the two agents stand on cells of the same colour of the
    chessboard at all times, so they never swap cells in a turn. *)
Theorem mc_trial_never_crosses (W H : Z) `{RS : RandomSource} (n : nat) (g : rng) :
  1 <= W -> 1 <= H -> 2 <= W \/ 2 <= H ->
  Z.even (W + H) = true ->
  never_crosses (0, 0) (W - 1, H - 1)
    (mc_path W H n (0, 0) (W - 1, H - 1) (0, 0) (W - 1, H - 1) g).
Proof.
  intros HW HH Hsz Hev. apply mc_path_never_crosses; [exact Hsz | | |].
  - apply in_bounds_spec; simpl; lia.
  - apply in_bounds_spec; simpl; lia.
  - simpl. replace (W - 1 + (H - 1)) with (W + H + 2 * (-1)) by lia.
    rewrite Z.odd_add_mul_2, <- Z.negb_even, Hev. reflexivity.
Qed.

Lemma mc_trial_never_crosses_witness :
  never_crosses (0, 0) (11, 11)
    (@mc_path GRID_W GRID_H tape_source 12 (0, 0) (11, 11) (0, 0) (11, 11) diagonal_tape).
Proof.
  apply (@mc_trial_never_crosses GRID_W GRID_H tape_source 12 diagonal_tape).
  - unfold GRID_W; lia.
  - unfold GRID_H; lia.
  - left. unfold GRID_W; lia.
  - reflexivity.
Defined.

(** X25. A trial that does not meet has run the loop up to the cap: it has
    drawn exactly [max_steps] pairs of cells. *)
Theorem mc_trial_without_meeting_runs_to_cap (W H : Z) `{RS : RandomSource}
    (max_steps : Z) (g g' : rng) :
  0 <= max_steps ->
  mc_trial W H max_steps g = (None, g') ->
  Z.of_nat (length (mc_path W H (Z.to_nat max_steps)
                      (0, 0) (W - 1, H - 1) (0, 0) (W - 1, H - 1) g)) = max_steps.
Proof.
  intros Hm E. unfold mc_trial in E. apply mc_steps_full in E. lia.
Qed.

Lemma mc_trial_without_meeting_runs_to_cap_witness :
  Z.of_nat (length (@mc_path GRID_W GRID_H tape_source (Z.to_nat 5)
                      (0, 0) (GRID_W - 1, GRID_H - 1) (0, 0) (GRID_W - 1, GRID_H - 1)
                      corner_tape)) = 5.
Proof.
  apply (@mc_trial_without_meeting_runs_to_cap GRID_W GRID_H tape_source 5 corner_tape
           (skipn 10 corner_tape)).
  - lia.
  - vm_compute. reflexivity.
Defined.

(* ------------------------------------------------------------------ *)
(** ** Searching a free cell *)

Section FreeCellFacts.

Variables W H : Z.
Context `{RS : RandomSource}.

Lemma randrange_pos (stop : Z) (g : rng) :
  0 < stop ->
  exists i g', randrange stop g = Some (i, g') /\ 0 <= i < stop.
Proof.
  intros Hs. unfold randrange.
  destruct (Z.ltb_spec 0 stop) as [_|Hle]; [|lia].
  assert (Hn : (0 < Z.to_nat stop)%nat) by lia.
  pose proof (randbelow_lt g (Z.to_nat stop) Hn) as Hlt.
  destruct (randbelow g (Z.to_nat stop)) as [i g']. simpl in Hlt.
  exists (Z.of_nat i), g'. split; [reflexivity | lia].
Qed.

Lemma randrange_empty (stop : Z) (g : rng) :
  stop <= 0 -> randrange stop g = None.
Proof.
  intros Hs. unfold randrange. destruct (Z.ltb_spec 0 stop); [lia | reflexivity].
Qed.

Lemma random_free_cell_succ (fuel : nat) (walls exclude : gset Vec) (g : rng) :
  0 < W -> 0 < H ->
  exists x y g2,
    (0 <= x < W /\ 0 <= y < H)
    /\ random_free_cell W H (S fuel) walls exclude g =
       if bool_decide ((x, y) ∉ walls) && bool_decide ((x, y) ∉ exclude)
       then FreeCell (x, y) g2
       else random_free_cell W H fuel walls exclude g2.
Proof.
  intros HW HH. cbn [random_free_cell].
  destruct (randrange_pos W g HW) as (x & g1 & -> & Hx).
  destruct (randrange_pos H g1 HH) as (y & g2 & -> & Hy).
  exists x, y, g2. split; [lia | reflexivity].
Qed.

End FreeCellFacts.

(** X26. On a grid of at least one cell [random_free_cell] never fails on an
    empty range, and a cell it returns is on the grid, is not a wall and is
    not excluded; with no wall and nothing excluded it returns the first cell
    it draws. *)
Theorem random_free_cell_sound (W H : Z) `{RS : RandomSource}
    (fuel : nat) (walls exclude : gset Vec) (g : rng) :
  1 <= W -> 1 <= H ->
  match random_free_cell W H fuel walls exclude g with
  | FreeCell p _ => (in_bounds W H p = true /\ (p ∉ walls) /\ (p ∉ exclude))
  | ValueError => False
  | StillSearching _ => fuel = O \/ walls <> ∅ \/ exclude <> ∅
  end.
Proof.
  intros HW HH. revert g. induction fuel as [|fuel IH]; intros g; [now left|].
  destruct (random_free_cell_succ W H fuel walls exclude g) as (x & y & g2 & Hxy & ->);
    [lia | lia |].
  destruct (bool_decide ((x, y) ∉ walls)) eqn:E1.
  - destruct (bool_decide ((x, y) ∉ exclude)) eqn:E2; cbn [andb].
    + apply bool_decide_eq_true in E1, E2.
      split; [apply in_bounds_spec; simpl; lia | tauto].
    + apply bool_decide_eq_false in E2.
      specialize (IH g2).
      destruct (random_free_cell W H fuel walls exclude g2); try exact IH.
      right. right. intros ->. apply E2, not_elem_of_empty.
  - cbn [andb]. apply bool_decide_eq_false in E1.
    specialize (IH g2).
    destruct (random_free_cell W H fuel walls exclude g2); try exact IH.
    right. left. intros ->. apply E1, not_elem_of_empty.
Qed.

(** The first cell drawn on the 12 by 12 grid without walls. *)
Lemma random_free_cell_sound_witness :
  match @random_free_cell GRID_W GRID_H lcg_source 3 ∅ ∅ 42 with
  | FreeCell p _ =>
    (in_bounds GRID_W GRID_H p = true /\ (p ∉ (∅ : gset Vec)) /\ (p ∉ (∅ : gset Vec)))
  | ValueError => False
  | StillSearching _ => 3%nat = O \/ (∅ : gset Vec) <> ∅ \/ (∅ : gset Vec) <> ∅
  end.
Proof.
  apply (@random_free_cell_sound GRID_W GRID_H lcg_source 3 ∅ ∅ 42);
    unfold GRID_W, GRID_H; lia.
Defined.

(** X27. When every cell of the grid is a wall or excluded, the search of
    [random_free_cell] goes on for ever: however many iterations it is given,
    it has returned no cell. *)
Theorem random_free_cell_no_free_cell (W H : Z) `{RS : RandomSource}
    (fuel : nat) (walls exclude : gset Vec) (g : rng) :
  1 <= W -> 1 <= H ->
  (forall p, in_bounds W H p = true -> p ∈ walls \/ p ∈ exclude) ->
  exists g', random_free_cell W H fuel walls exclude g = StillSearching g'.
Proof.
  intros HW HH Hfull. revert g. induction fuel as [|fuel IH]; intros g; [now exists g|].
  destruct (random_free_cell_succ W H fuel walls exclude g) as (x & y & g2 & Hxy & ->);
    [lia | lia |].
  assert (E : bool_decide ((x, y) ∉ walls) && bool_decide ((x, y) ∉ exclude) = false).
  { apply andb_false_iff.
    destruct (Hfull (x, y)) as [Hw|He]; [apply in_bounds_spec; simpl; lia | |].
    - left. apply bool_decide_eq_false. tauto.
    - right. apply bool_decide_eq_false. tauto. }
  rewrite E. apply IH.
Qed.

(** The grid of one cell with its cell excluded. *)
Lemma random_free_cell_no_free_cell_witness :
  exists g', @random_free_cell 1 1 lcg_source 50 ∅ {[ (0, 0) ]} 42 = StillSearching g'.
Proof.
  apply (@random_free_cell_no_free_cell 1 1 lcg_source 50 ∅ {[ (0, 0) ]} 42); try lia.
  intros p Hp. right. apply in_bounds_spec in Hp.
  destruct p as [x y]; simpl in Hp. apply elem_of_singleton. f_equal; lia.
Defined.

(** X28. On a grid without cells (a width or a height of 0 or less)
    [random_free_cell] fails at its first draw with the [ValueError] of
    [randrange] on an empty range. *)
Theorem random_free_cell_empty_grid (W H : Z) `{RS : RandomSource}
    (fuel : nat) (walls exclude : gset Vec) (g : rng) :
  W <= 0 \/ H <= 0 ->
  random_free_cell W H (S fuel) walls exclude g = ValueError.
Proof.
  intros Hsz. cbn [random_free_cell].
  destruct (Z_le_dec W 0) as [HW|HW].
  - now rewrite randrange_empty.
  - assert (HW' : 0 < W) by lia.
    destruct (randrange_pos W g HW') as (x & g1 & -> & _).
    rewrite randrange_empty by lia. reflexivity.
Qed.

Lemma random_free_cell_empty_grid_witness :
  @random_free_cell 0 GRID_H lcg_source 1 ∅ ∅ 42 = ValueError.
Proof.
  apply (@random_free_cell_empty_grid 0 GRID_H lcg_source 0 ∅ ∅ 42). left. lia.
Defined.
